(** * AI-Meeting-Assistant: the chunk-and-summarize core of [app.py]

    A shallow embedding of [chunk_text_by_words], [summarize_long_text],
    [extract_entities_and_actions], [analyze_notes] and the [run_clicked]
    branch of the Streamlit script, together with the properties the
    specification states about them.

    Python values are modelled as follows:
    - [int] is [Z] (unbounded);
    - [str] is a list of Unicode code points, each an [N];
    - a list is a [list]; list slicing follows Python's clamping rules;
    - the [while] loop of the chunker is run with fuel, since it does not
      terminate for every argument;
    - calls to the models and to Streamlit are recorded in an event log
      carried by a small writer-and-exception monad. *)

From Stdlib Require Import String Ascii List ZArith NArith Lia Bool.
Import ListNotations.
Open Scope Z_scope.

(** ** Python strings *)

Module PyStr.

Definition char := N.
Definition str := list char.

(** A literal of the source, through its (ASCII) characters. *)
Definition lit (s : string) : str :=
  List.map N_of_ascii (list_ascii_of_string s).

(** The code points for which [str.isspace] holds on a one-character
    string: the table used by [str.split()] and [str.strip()]. *)
Definition whitespace : list char :=
  [0x09; 0x0A; 0x0B; 0x0C; 0x0D; 0x1C; 0x1D; 0x1E; 0x1F; 0x20; 0x85; 0xA0;
   0x1680; 0x2000; 0x2001; 0x2002; 0x2003; 0x2004; 0x2005; 0x2006; 0x2007;
   0x2008; 0x2009; 0x200A; 0x2028; 0x2029; 0x202F; 0x205F; 0x3000]%N.

Definition isspace (c : char) : bool := existsb (N.eqb c) whitespace.

Definition SP : str := [0x20%N].

(** [s.split()]: runs of whitespace separate the words, and leading or
    trailing whitespace yields no empty word.  [cur] is the word being
    scanned. *)
Fixpoint split_from (cur : str) (s : str) : list str :=
  match s with
  | [] => match cur with [] => [] | _ :: _ => [cur] end
  | c :: rest =>
      if isspace c then
        match cur with
        | [] => split_from [] rest
        | _ :: _ => cur :: split_from [] rest
        end
      else split_from (cur ++ [c]) rest
  end.

Definition split (s : str) : list str := split_from [] s.

(** [sep.join(ws)] *)
Fixpoint join (sep : str) (ws : list str) : str :=
  match ws with
  | [] => []
  | w :: rest =>
      match rest with
      | [] => w
      | _ :: _ => w ++ sep ++ join sep rest
      end
  end.

(** [s.strip()] *)
Fixpoint lstrip (s : str) : str :=
  match s with
  | [] => []
  | c :: rest => if isspace c then lstrip rest else s
  end.

Definition rstrip (s : str) : str := rev (lstrip (rev s)).
Definition strip (s : str) : str := rstrip (lstrip s).

(** Truth value of a string or of a list: non-empty. *)
Definition truthy {A} (l : list A) : bool :=
  match l with [] => false | _ :: _ => true end.

Definition str_eqb (a b : str) : bool :=
  if list_eq_dec N.eq_dec a b then true else false.

(** [needle in hay] *)
Fixpoint starts_with (needle hay : str) : bool :=
  match needle, hay with
  | [], _ => true
  | _ :: _, [] => false
  | a :: needle', b :: hay' => N.eqb a b && starts_with needle' hay'
  end.

Fixpoint contains (needle hay : str) : bool :=
  starts_with needle hay ||
  match hay with
  | [] => false
  | _ :: hay' => contains needle hay'
  end.

(** A word as [split] produces them: not empty, no whitespace in it. *)
Definition is_word (w : str) : Prop :=
  w <> [] /\ forallb (fun c => negb (isspace c)) w = true.

End PyStr.
Import PyStr.

(** ** Python lists *)

Definition len {A} (l : list A) : Z := Z.of_nat (length l).

(** An index of a slice, as Python clamps it: a negative one counts from
    the end, and both sides stop at the bounds of the list. *)
Definition clamp (n i : Z) : Z :=
  if i <? 0 then Z.max 0 (i + n) else Z.min i n.

(** [l[a:b]] *)
Definition slice {A} (l : list A) (a b : Z) : list A :=
  let a' := clamp (len l) a in
  let b' := clamp (len l) b in
  firstn (Z.to_nat (b' - a')) (skipn (Z.to_nat a') l).

(** ** The chunker *)

(** The state of the [while] loop of [chunk_text_by_words]: either the
    loop goes on with the chunks so far and the cursor [start], or it has
    been left (by [break] or by its condition) with the chunks. *)
Inductive loop (A : Type) : Type :=
| Continue (acc : list A) (start : Z)
| Exit (acc : list A).
Arguments Continue {A} acc start.
Arguments Exit {A} acc.

Definition emitted {A} (l : loop A) : list A :=
  match l with Continue acc _ => acc | Exit acc => acc end.

Definition loop_map {A B} (f : A -> B) (l : loop A) : loop B :=
  match l with
  | Continue acc start => Continue (List.map f acc) start
  | Exit acc => Exit (List.map f acc)
  end.

Section Chunker.

Variable words : list str.
Variables max_words overlap : Z.

(** One test of the loop condition followed by one run of the body. *)
Definition iteration (chunks : list str) (start : Z) : loop str :=
  if start <? len words then
    let end_ := Z.min (start + max_words) (len words) in
    let chunks := chunks ++ [join SP (slice words start end_)] in
    if end_ =? len words then Exit chunks
    else Continue chunks (Z.max 0 (end_ - overlap))
  else Exit chunks.

(** At most [fuel] iterations of the loop. *)
Fixpoint while (fuel : nat) (chunks : list str) (start : Z) : loop str :=
  match fuel with
  | O => Continue chunks start
  | S fuel' =>
      match iteration chunks start with
      | Exit chunks' => Exit chunks'
      | Continue chunks' start' => while fuel' chunks' start'
      end
  end.

End Chunker.

(** [chunk_text_by_words(text, max_words, overlap)]; [None] when the loop
    has not been left after [fuel] iterations. *)
Definition chunk_text_by_words (fuel : nat) (text : str)
    (max_words overlap : Z) : option (list str) :=
  let words := split text in
  if negb (truthy words) then Some []
  else
    match while words max_words overlap fuel [] 0 with
    | Exit chunks => Some chunks
    | Continue _ _ => None
    end.

(** *** The word-index ranges of the chunks

    The same loop, recording the range [(start, end)] of each chunk instead
    of its text.  It depends on the number [n] of words only. *)
Section Ranges.

Variable n : Z.
Variables max_words overlap : Z.

Definition range_iteration (ranges : list (Z * Z)) (start : Z)
    : loop (Z * Z) :=
  if start <? n then
    let end_ := Z.min (start + max_words) n in
    let ranges := ranges ++ [(start, end_)] in
    if end_ =? n then Exit ranges
    else Continue ranges (Z.max 0 (end_ - overlap))
  else Exit ranges.

Fixpoint range_while (fuel : nat) (ranges : list (Z * Z)) (start : Z)
    : loop (Z * Z) :=
  match fuel with
  | O => Continue ranges start
  | S fuel' =>
      match range_iteration ranges start with
      | Exit ranges' => Exit ranges'
      | Continue ranges' start' => range_while fuel' ranges' start'
      end
  end.

End Ranges.

Definition chunk_ranges (fuel : nat) (n max_words overlap : Z)
    : option (list (Z * Z)) :=
  if n =? 0 then Some []
  else
    match range_while n max_words overlap fuel [] 0 with
    | Exit ranges => Some ranges
    | Continue _ _ => None
    end.

(** The chunk of a range. *)
Definition chunk_of (words : list str) (r : Z * Z) : str :=
  join SP (slice words (fst r) (snd r)).

(** The range [r] holds the word index [i]. *)
Definition in_range (r : Z * Z) (i : Z) : Prop := fst r <= i < snd r.

(** How many word indices two ranges have in common. *)
Definition shared (r1 r2 : Z * Z) : Z :=
  Z.max 0 (Z.min (snd r1) (snd r2) - Z.max (fst r1) (fst r2)).

(** [ceil(a / b)] for a positive [b]. *)
Definition ceil_div (a b : Z) : Z := (a + b - 1) / b.

(** ** Effects: the models and Streamlit *)

(** A Python exception, by the name of its class. *)
Inductive exn : Type := PyException (name : string).

(** A piece of displayed text: a literal of the source or a value put in
    it by an f-string. *)
Inductive frag : Type :=
| Lit (s : string)
| Val (v : str).

(** What a run does that can be observed: the calls of the two models and
    the calls of Streamlit.  The pictographs that open the messages of the
    source are left out of the literals. *)
Inductive event : Type :=
| SummarizerCall (input : str) (max_length min_length : Z)
| NlpCall (input : str)
| StProgressNew
| StProgress (idx total : Z)
| StProgressEmpty
| StSpinner (msg : string)
| StError (msg : string)
| StWarning (msg : string)
| StMarkdown (body : list frag)
| StInfo (body : frag)
| StWrite (msg : string).

(** The result of a computation: a value, an exception, or no result yet
    because the chunker's loop is still running when the fuel is spent. *)
Inductive result (A : Type) : Type :=
| Ok (a : A)
| Raise (e : exn)
| Running.
Arguments Ok {A} a.
Arguments Raise {A} e.
Arguments Running {A}.

(** A computation: its result and the events up to it, in order. *)
Definition M (A : Type) : Type := (result A * list event)%type.

Definition ret {A} (a : A) : M A := (Ok a, []).
Definition raise {A} (e : exn) : M A := (Raise e, []).
Definition emit (ev : event) : M unit := (Ok tt, [ev]).

Definition bind {A B} (m : M A) (k : A -> M B) : M B :=
  match m with
  | (Ok a, log) => let (r, log') := k a in (r, log ++ log')
  | (Raise e, log) => (Raise e, log)
  | (Running, log) => (Running, log)
  end.

Notation "x <- m ;; k" := (bind m (fun x => k))
  (at level 61, m at next level, right associativity).
Notation "m ;;; k" := (bind m (fun _ => k))
  (at level 61, right associativity).

Definition outcome {A} (m : M A) : result A := fst m.
Definition events {A} (m : M A) : list event := snd m.

(** The calls of the Summarizer in a log, in order. *)
Definition summarizer_calls (log : list event) : list (str * Z * Z) :=
  flat_map (fun ev =>
    match ev with
    | SummarizerCall input mx mn => [(input, mx, mn)]
    | _ => []
    end) log.

(** The calls of the entity extractor in a log, in order. *)
Definition nlp_calls (log : list event) : list str :=
  flat_map (fun ev =>
    match ev with
    | NlpCall input => [input]
    | _ => []
    end) log.

(** A summarization pipeline: called with a text, [max_length] and
    [min_length] ([do_sample] is always [False], so the call is a function
    of these), it gives the [summary_text] of its first result or raises. *)
Definition Pipeline : Type := str -> Z -> Z -> exn + str.

(** A pipeline that never raises. *)
Definition stub (f : str -> Z -> Z -> str) : Pipeline :=
  fun input mx mn => inr (f input mx mn).

(** A spaCy span or sentence. *)
Record Span : Type := { span_text : str; label_ : str }.
Record Doc : Type := { ents : list Span; sents : list Span }.
Definition Nlp : Type := str -> exn + Doc.

(** What the loaders find; an exception here is one that the source's
    [except Exception] catches.  The memoisation of [st.cache_resource] is
    not modelled: a run starts from an empty cache. *)
Record world : Type := {
  (** [pipeline("summarization", model=..., device=-1)] *)
  load_pipeline : string -> exn + Pipeline;
  (** [spacy.load("en_core_web_sm")] before any download *)
  spacy_load : exn + Nlp;
  (** [spacy_download("en_core_web_sm")] followed by [spacy.load] *)
  spacy_download_and_load : exn + Nlp
}.

Definition get_summarizer (w : world) : M Pipeline :=
  match load_pipeline w "facebook/bart-large-cnn" with
  | inr p => ret p
  | inl _ =>
      match load_pipeline w "sshleifer/distilbart-cnn-12-6" with
      | inr p => ret p
      | inl exc =>
          emit (StError "Failed to load summarizer model. Check your internet connection.") ;;;
          raise exc
      end
  end.

Definition get_nlp (w : world) : M (option Nlp) :=
  match spacy_load w with
  | inr nlp => ret (Some nlp)
  | inl _ =>
      match spacy_download_and_load w with
      | inr nlp => ret (Some nlp)
      | inl _ =>
          emit (StWarning "Could not download spaCy model. Entity recognition disabled.") ;;;
          ret None
      end
  end.

(** [summarizer(input, max_length=.., min_length=.., do_sample=False)[0]["summary_text"]] *)
Definition call_summarizer (summarizer : Pipeline) (input : str)
    (max_length min_length : Z) : M str :=
  emit (SummarizerCall input max_length min_length) ;;;
  match summarizer input max_length min_length with
  | inr summary => ret summary
  | inl e => raise e
  end.

(** [nlp(text)] *)
Definition call_nlp (nlp : Nlp) (input : str) : M Doc :=
  emit (NlpCall input) ;;;
  match nlp input with
  | inr doc => ret doc
  | inl e => raise e
  end.

(** ** The chunked summarizer *)

(** The [for idx, chunk in enumerate(chunks, start=1)] loop of
    [summarize_long_text]; [total] is [len(chunks)]. *)
Fixpoint summarize_chunks (summarizer : Pipeline) (total : Z) (idx : Z)
    (chunks : list str) (partial_summaries : list str) : M (list str) :=
  match chunks with
  | [] => ret partial_summaries
  | chunk :: rest =>
      summary <- call_summarizer summarizer chunk 130 50 ;;
      let partial_summaries := partial_summaries ++ [summary] in
      emit (StProgress idx total) ;;;
      summarize_chunks summarizer total (idx + 1) rest partial_summaries
  end.

Definition summarize_long_text (fuel : nat) (w : world) (text : str)
    : M str :=
  summarizer <- get_summarizer w ;;
  match chunk_text_by_words fuel text 800 50 with
  | None => (Running, [])
  | Some chunks =>
      if negb (truthy chunks) then ret []
      else if len chunks =? 1 then
        call_summarizer summarizer (hd [] chunks) 130 50
      else
        emit StProgressNew ;;;
        partial_summaries <-
          summarize_chunks summarizer (len chunks) 1 chunks [] ;;
        emit StProgressEmpty ;;;
        let combined := join SP partial_summaries in
        final <- call_summarizer summarizer combined 160 60 ;;
        ret final
  end.

(** ** Entities and action items *)

Record extraction : Type := {
  x_deadlines : list str;
  x_people : list str;
  x_action_items : list str
}.

Record analysis : Type := {
  summary : str;
  deadlines : list str;
  people : list str;
  action_items : list str
}.

Definition trigger_words : list str :=
  [lit "will"; lit "must"; lit "need to"; lit "should"; lit "action";
   lit "todo"; lit "follow up"].

(** [dict.fromkeys(l)], as the list of its keys: the elements of [l] in
    the order they are first seen. *)
Fixpoint fromkeys_from (seen : list str) (l : list str) : list str :=
  match l with
  | [] => []
  | x :: rest =>
      if existsb (str_eqb x) seen then fromkeys_from seen rest
      else x :: fromkeys_from (x :: seen) rest
  end.

Definition dict_fromkeys (l : list str) : list str := fromkeys_from [] l.

Section App.

(** [str.lower], which the source takes from Python. *)
Variable lower : str -> str.

Definition extract_entities_and_actions (w : world) (text : str)
    : M extraction :=
  nlp <- get_nlp w ;;
  match nlp with
  | None =>
      ret {| x_deadlines := []; x_people := []; x_action_items := [] |}
  | Some nlp =>
      doc <- call_nlp nlp text ;;
      let deadlines :=
        List.map span_text
          (filter (fun ent => str_eqb (label_ ent) (lit "DATE")
                              || str_eqb (label_ ent) (lit "TIME"))
                  (ents doc)) in
      let people :=
        List.map span_text
          (filter (fun ent => str_eqb (label_ ent) (lit "PERSON"))
                  (ents doc)) in
      let action_items :=
        List.map (fun sent => strip (span_text sent))
          (filter (fun sent =>
                     existsb (fun trigger =>
                                contains trigger (lower (span_text sent)))
                             trigger_words)
                  (sents doc)) in
      ret {| x_deadlines := deadlines; x_people := people;
             x_action_items := action_items |}
  end.

Definition analyze_notes (fuel : nat) (w : world) (text : str)
    : M analysis :=
  s <- summarize_long_text fuel w text ;;
  x <- extract_entities_and_actions w text ;;
  ret {| summary := s; deadlines := x_deadlines x; people := x_people x;
         action_items := x_action_items x |}.

(** One card of the page: its heading, then one bullet per distinct item,
    or the line that says there is none. *)
Fixpoint bullets (mark : string) (bold : bool) (items : list str)
    : M unit :=
  match items with
  | [] => ret tt
  | item :: rest =>
      emit (StMarkdown
              (if bold then [Lit mark; Lit "**"; Val item; Lit "**"]
               else [Lit mark; Val item])) ;;;
      bullets mark bold rest
  end.

Definition card (heading mark : string) (bold : bool) (none : string)
    (items : list str) : M unit :=
  emit (StMarkdown [Lit heading]) ;;;
  if truthy items then bullets mark bold (dict_fromkeys items)
  else emit (StWrite none).

(** The [if run_clicked:] branch of the script, for the content
    [user_text] of the text area. *)
Definition run_clicked (fuel : nat) (w : world) (user_text : str)
    : M unit :=
  if truthy (strip user_text) then
    emit (StSpinner "Analyzing notes... please wait.") ;;;
    result <- analyze_notes fuel w user_text ;;
    emit (StMarkdown [Lit "### Summary"]) ;;;
    emit (StInfo (if truthy (summary result) then Val (summary result)
                  else Lit "No summary generated.")) ;;;
    card "### Deadlines" "- " true "No deadlines found."
         (deadlines result) ;;;
    card "### People" "- " true "No people found." (people result) ;;;
    card "### Action Items" "- " false "No action items found."
         (action_items result)
  else
    emit (StWarning "Please paste some text first.").

End App.

(** ** Definitions used by the statements *)

(** The ranges from the cursor [s] on, for [n] words: all of them but the
    last are [max_words] long, the next one starts [overlap] before the end
    of the one it follows, and the last one ends at [n]. *)
Inductive chain (n max_words overlap : Z) : Z -> list (Z * Z) -> Prop :=
| chain_last s :
    0 <= s < n -> n <= s + max_words -> chain n max_words overlap s [(s, n)]
| chain_step s tl :
    0 <= s -> s + max_words < n ->
    chain n max_words overlap (s + max_words - overlap) tl ->
    chain n max_words overlap s ((s, s + max_words) :: tl).

(** What the chunk loop logs: for each chunk its call, then its progress
    report. *)
Fixpoint chunk_log (total idx : Z) (chunks : list str) : list event :=
  match chunks with
  | [] => []
  | chunk :: rest =>
      SummarizerCall chunk 130 50 :: StProgress idx total
      :: chunk_log total (idx + 1) rest
  end.

(** A computation that does not call the entity extractor. *)
Definition no_nlp {A} (m : M A) : Prop := nlp_calls (events m) = [].

(** A world in which the first model loads and echoes its input, and
    spaCy cannot be loaded. *)
Definition echo_world : world :=
  {| load_pipeline := fun _ => inr (stub (fun input _ _ => input));
     spacy_load := inl (PyException "OSError");
     spacy_download_and_load := inl (PyException "OSError") |}.

(** A text of 801 words. *)
Definition long_text : str := List.concat (repeat (lit "w ") 801).

(** The progress reports in a log, as (index, total), in order. *)
Definition progress_reports (log : list event) : list (Z * Z) :=
  flat_map (fun ev =>
    match ev with
    | StProgress idx total => [(idx, total)]
    | _ => []
    end) log.

(** The values that the markdown lines of a log display, in order. *)
Definition shown_values (log : list event) : list str :=
  flat_map (fun ev =>
    match ev with
    | StMarkdown body =>
        flat_map (fun f => match f with Val v => [v] | Lit _ => [] end) body
    | _ => []
    end) log.

(** A pipeline that raises on an input of fewer than 100 words and echoes
    any other input, and a world in which it is the model that loads. *)
Definition flaky : Pipeline :=
  fun input _ _ =>
    if len (split input) <? 100 then inl (PyException "RuntimeError")
    else inr input.

Definition flaky_world : world :=
  {| load_pipeline := fun _ => inr flaky;
     spacy_load := inl (PyException "OSError");
     spacy_download_and_load := inl (PyException "OSError") |}.

(** A world without any model, and one in which spaCy loads and finds
    nothing. *)
Definition no_model_world : world :=
  {| load_pipeline := fun name => inl (PyException name);
     spacy_load := inl (PyException "OSError");
     spacy_download_and_load := inl (PyException "OSError") |}.

Definition empty_nlp : Nlp := fun _ => inr {| ents := []; sents := [] |}.

Definition spacy_world : world :=
  {| load_pipeline := fun _ => inr (stub (fun input _ _ => input));
     spacy_load := inr empty_nlp;
     spacy_download_and_load := inl (PyException "OSError") |}.

(** A spaCy that finds the same three entities and two sentences in any
    text, and a world in which it is the one that loads. *)
Definition tagging_nlp : Nlp :=
  fun _ =>
    inr {| ents := [ {| span_text := lit "Friday"; label_ := lit "DATE" |};
                     {| span_text := lit "Ann"; label_ := lit "PERSON" |};
                     {| span_text := lit "Acme"; label_ := lit "ORG" |} ];
           sents := [ {| span_text := lit "  Ann will ship. ";
                         label_ := [] |};
                      {| span_text := lit "Fine."; label_ := [] |} ] |}.

Definition tagging_world : world :=
  {| load_pipeline := fun _ => inr (stub (fun input _ _ => input));
     spacy_load := inr tagging_nlp;
     spacy_download_and_load := inl (PyException "OSError") |}.

Arguments isspace : simpl never.

(** ** Words: [split], [join], [strip] *)

Lemma isspace_SP : isspace 0x20%N = true.
Proof. reflexivity. Qed.

Lemma is_word_snoc (cur : str) (c : char) :
  cur = [] \/ is_word cur -> isspace c = false -> is_word (cur ++ [c]).
Proof.
  intros Hcur Hc. split.
  - destruct cur; discriminate.
  - rewrite forallb_app. cbn. rewrite Hc. cbn.
    destruct Hcur as [-> | [_ H]]; [reflexivity | now rewrite H].
Qed.

Lemma split_from_words (s cur : str) :
  cur = [] \/ is_word cur -> Forall is_word (split_from cur s).
Proof.
  revert cur. induction s as [| c rest IH]; intros cur Hcur; cbn.
  - destruct cur as [| a cur']; [constructor |].
    destruct Hcur as [H | H]; [discriminate |].
    constructor; [exact H | constructor].
  - destruct (isspace c) eqn:Hc.
    + destruct cur as [| a cur'].
      * apply IH. now left.
      * destruct Hcur as [H | H]; [discriminate |].
        constructor; [exact H | apply IH; now left].
    + apply IH. right. now apply is_word_snoc.
Qed.

Lemma split_words (s : str) : Forall is_word (split s).
Proof. apply split_from_words. now left. Qed.

Lemma split_from_app (w cur rest : str) :
  forallb (fun c => negb (isspace c)) w = true ->
  split_from cur (w ++ rest) = split_from (cur ++ w) rest.
Proof.
  revert cur. induction w as [| c w IH]; intros cur Hw; cbn.
  - now rewrite app_nil_r.
  - cbn in Hw. apply andb_true_iff in Hw as [Hc Hw].
    apply negb_true_iff in Hc. rewrite Hc, IH by exact Hw.
    now rewrite <- app_assoc.
Qed.

Lemma split_join (ws : list str) :
  Forall is_word ws -> split (join SP ws) = ws.
Proof.
  unfold split. induction 1 as [| w rest [Hne Hw] Hrest IH]; [reflexivity |].
  cbn [join]. destruct rest as [| w' rest'].
  - rewrite <- (app_nil_r w) at 1. rewrite split_from_app by exact Hw.
    cbn. destruct w; [contradiction | reflexivity].
  - rewrite split_from_app by exact Hw. cbn [app SP split_from].
    rewrite isspace_SP. destruct w; [contradiction |].
    cbn [app]. now rewrite IH.
Qed.

Lemma join_not_empty (ws : list str) :
  ws <> [] -> Forall is_word ws -> join SP ws <> [].
Proof.
  intros Hne Hws. destruct Hws as [| w rest [Hw _] _]; [contradiction |].
  cbn. destruct w; [contradiction |]. destruct rest; discriminate.
Qed.

Lemma lstrip_whitespace (s : str) :
  forallb isspace s = true -> lstrip s = [].
Proof.
  induction s as [| c s IH]; [reflexivity |]. cbn.
  intros H. apply andb_true_iff in H as [Hc Hs]. now rewrite Hc, IH.
Qed.

Lemma strip_whitespace (s : str) :
  forallb isspace s = true -> strip s = [].
Proof.
  intros H. unfold strip. now rewrite lstrip_whitespace.
Qed.

Lemma split_from_whitespace (s : str) :
  forallb isspace s = true -> split_from [] s = [].
Proof.
  induction s as [| c s IH]; [reflexivity |]. cbn.
  intros H. apply andb_true_iff in H as [Hc Hs]. now rewrite Hc, IH.
Qed.

(** ** Slices *)

Lemma len_nonneg {A} (l : list A) : 0 <= len l.
Proof. unfold len. lia. Qed.

Lemma len_app {A} (l1 l2 : list A) : len (l1 ++ l2) = len l1 + len l2.
Proof. unfold len. rewrite length_app. lia. Qed.

Lemma len_slice {A} (l : list A) (a b : Z) :
  0 <= a <= len l -> 0 <= b <= len l ->
  len (slice l a b) = Z.max 0 (b - a).
Proof.
  intros Ha Hb. unfold slice, clamp.
  destruct (Z.ltb_spec a 0); [lia |]. destruct (Z.ltb_spec b 0); [lia |].
  unfold len in *. rewrite length_firstn, length_skipn. lia.
Qed.

Lemma slice_all {A} (l : list A) : slice l 0 (len l) = l.
Proof.
  pose proof (len_nonneg l) as Hl. unfold slice, clamp.
  destruct (Z.ltb_spec (len l) 0); [lia |]. cbn [Z.ltb Z.compare].
  replace (Z.to_nat (Z.min 0 (len l))) with 0%nat by lia.
  replace (Z.to_nat (Z.min (len l) (len l) - Z.min 0 (len l)))
    with (length l) by (unfold len; lia).
  apply firstn_all.
Qed.

Lemma Forall_slice {A} (P : A -> Prop) (l : list A) (a b : Z) :
  Forall P l -> Forall P (slice l a b).
Proof.
  intros H. unfold slice.
  set (i := Z.to_nat (clamp (len l) a)).
  set (k := Z.to_nat (clamp (len l) b - clamp (len l) a)).
  rewrite <- (firstn_skipn i l) in H. apply Forall_app in H as [_ H].
  rewrite <- (firstn_skipn k (skipn i l)) in H.
  now apply Forall_app in H as [H _].
Qed.

Lemma slice_not_empty {A} (l : list A) (a b : Z) :
  0 <= a -> a < b -> b <= len l -> slice l a b <> [].
Proof.
  intros Ha Hab Hb Hnil.
  assert (H : len (slice l a b) = Z.max 0 (b - a)) by (apply len_slice; lia).
  rewrite Hnil in H. cbn in H. lia.
Qed.

(** ** The chunks are the texts of the ranges *)

Lemma while_ranges (words : list str) (max_words overlap : Z) (fuel : nat) :
  forall ranges start,
    while words max_words overlap fuel
          (List.map (chunk_of words) ranges) start
    = loop_map (chunk_of words)
        (range_while (len words) max_words overlap fuel ranges start).
Proof.
  induction fuel as [| fuel IH]; intros ranges start; [reflexivity |].
  cbn [while range_while]. unfold iteration, range_iteration.
  destruct (start <? len words); [| reflexivity].
  destruct (Z.min (start + max_words) (len words) =? len words).
  - cbn. now rewrite map_app.
  - rewrite <- IH. now rewrite map_app.
Qed.

Lemma chunks_of_ranges (fuel : nat) (text : str) (max_words overlap : Z) :
  chunk_text_by_words fuel text max_words overlap
  = option_map (List.map (chunk_of (split text)))
      (chunk_ranges fuel (len (split text)) max_words overlap).
Proof.
  unfold chunk_text_by_words, chunk_ranges.
  destruct (split text) as [| w ws] eqn:Hw; [reflexivity |].
  cbn [truthy negb]. replace (len (w :: ws) =? 0) with false
    by (symmetry; apply Z.eqb_neq; unfold len; cbn; lia).
  change (@nil str) with (List.map (chunk_of (w :: ws)) []).
  rewrite while_ranges.
  now destruct (range_while _ _ _ _ _ _).
Qed.

(** ** The ranges when [0 <= overlap < max_words] *)

Section Progress.

Variable n : Z.
Variables max_words overlap : Z.
Hypothesis overlap_nonneg : 0 <= overlap.
Hypothesis overlap_small : overlap < max_words.

Lemma range_while_chain (fuel : nat) :
  forall ranges s,
    0 <= s < n ->
    n - s <= Z.of_nat fuel * (max_words - overlap) ->
    exists tl,
      range_while n max_words overlap fuel ranges s = Exit (ranges ++ tl)
      /\ chain n max_words overlap s tl
      /\ (len tl - 1) * (max_words - overlap) < n - s.
Proof using All.
  induction fuel as [| fuel IH]; intros ranges s Hs Hfuel; [lia |].
  cbn [range_while]. unfold range_iteration.
  destruct (Z.ltb_spec s n); [| lia].
  destruct (Z.eqb_spec (Z.min (s + max_words) n) n) as [He | He].
  - exists [(s, n)]. rewrite He. split; [reflexivity |].
    split; [apply chain_last; lia |]. unfold len; cbn. lia.
  - assert (Hlt : s + max_words < n) by lia.
    rewrite Z.min_l by lia.
    replace (Z.max 0 (s + max_words - overlap))
      with (s + max_words - overlap) by lia.
    destruct (IH (ranges ++ [(s, s + max_words)]) (s + max_words - overlap))
      as (tl & Hrun & Hchain & Hlen); [lia | nia |].
    exists ((s, s + max_words) :: tl). rewrite Hrun, <- app_assoc.
    split; [reflexivity |]. split; [now apply chain_step |].
    unfold len in *. cbn [length]. nia.
Qed.

Lemma chain_head (s : Z) (tl : list (Z * Z)) :
  chain n max_words overlap s tl ->
  exists tl', tl = (s, Z.min (s + max_words) n) :: tl'
              /\ 0 <= s < Z.min (s + max_words) n.
Proof using All.
  intros [s' Hs Hn | s' tl' Hs Hn _].
  - exists []. rewrite Z.min_r by lia. split; [reflexivity | lia].
  - exists tl'. rewrite Z.min_l by lia. split; [reflexivity | lia].
Qed.

Lemma chain_last_end (s : Z) (tl : list (Z * Z)) (d : Z * Z) :
  chain n max_words overlap s tl -> snd (last tl d) = n.
Proof using All.
  induction 1 as [s Hs Hn | s tl Hs Hn Hc IH]; [reflexivity |].
  destruct (chain_head _ _ Hc) as (tl' & -> & _). exact IH.
Qed.

Lemma chain_in (s : Z) (tl : list (Z * Z)) :
  chain n max_words overlap s tl ->
  forall r, In r tl ->
    s <= fst r /\ fst r < snd r /\ snd r <= n
    /\ snd r = Z.min (fst r + max_words) n.
Proof using All.
  induction 1 as [s Hs Hn | s tl Hs Hn Hc IH]; intros r Hr.
  - destruct Hr as [<- | []]. cbn. lia.
  - destruct Hr as [<- | Hr]; [cbn; lia |].
    specialize (IH r Hr). lia.
Qed.

Lemma chain_covers (s : Z) (tl : list (Z * Z)) :
  chain n max_words overlap s tl ->
  forall i, s <= i < n -> exists r, In r tl /\ in_range r i.
Proof using All.
  induction 1 as [s Hs Hn | s tl Hs Hn Hc IH]; intros i Hi.
  - exists (s, n). split; [now left | exact Hi].
  - destruct (Z.lt_ge_cases i (s + max_words)) as [Hlt | Hge].
    + exists (s, s + max_words). split; [now left |]. unfold in_range; cbn. lia.
    + destruct (IH i) as (r & Hr & Hin); [lia |].
      exists r. split; [now right | exact Hin].
Qed.

Lemma chain_consecutive (s : Z) (tl : list (Z * Z)) :
  chain n max_words overlap s tl ->
  forall i r1 r2,
    nth_error tl i = Some r1 -> nth_error tl (S i) = Some r2 ->
    snd r1 = fst r1 + max_words
    /\ snd r1 < n
    /\ fst r2 = snd r1 - overlap
    /\ fst r1 < fst r2 <= snd r1
    /\ snd r1 < snd r2.
Proof using All.
  induction 1 as [s Hs Hn | s tl Hs Hn Hc IH]; intros i r1 r2 H1 H2.
  - destruct i; discriminate.
  - destruct i as [| i].
    + cbn in H1. injection H1 as <-.
      destruct (chain_head _ _ Hc) as (tl' & -> & Hhd).
      cbn in H2. injection H2 as <-. cbn. lia.
    + exact (IH i r1 r2 H1 H2).
Qed.

Lemma chunk_ranges_chain (fuel : nat) :
  0 < n ->
  n <= Z.of_nat fuel * (max_words - overlap) ->
  exists ranges,
    chunk_ranges fuel n max_words overlap = Some ranges
    /\ chain n max_words overlap 0 ranges
    /\ (len ranges - 1) * (max_words - overlap) < n.
Proof using All.
  intros Hn Hfuel. unfold chunk_ranges.
  destruct (Z.eqb_spec n 0); [lia |].
  destruct (range_while_chain fuel [] 0) as (tl & Hrun & Hchain & Hlen);
    [lia | lia |].
  exists tl. rewrite Hrun. cbn. repeat split; [exact Hchain | lia].
Qed.

End Progress.

(** More fuel does not change a result. *)
Lemma range_while_more (n max_words overlap : Z) (fuel : nat) :
  forall extra ranges s out,
    range_while n max_words overlap fuel ranges s = Exit out ->
    range_while n max_words overlap (fuel + extra) ranges s = Exit out.
Proof.
  induction fuel as [| fuel IH]; intros extra ranges s out H; [discriminate |].
  cbn [range_while Nat.add] in *.
  destruct (range_iteration n max_words overlap ranges s); [| exact H].
  now apply IH.
Qed.

Lemma chunk_ranges_more (n max_words overlap : Z) (fuel fuel' : nat)
    (ranges : list (Z * Z)) :
  (fuel <= fuel')%nat ->
  chunk_ranges fuel n max_words overlap = Some ranges ->
  chunk_ranges fuel' n max_words overlap = Some ranges.
Proof.
  intros Hle. unfold chunk_ranges. destruct (n =? 0); [trivial |].
  destruct (range_while n max_words overlap fuel [] 0) eqn:Hrun;
    [discriminate |].
  intros [= <-]. replace fuel' with (fuel + (fuel' - fuel))%nat by lia.
  now rewrite (range_while_more _ _ _ _ _ _ _ _ Hrun).
Qed.

Lemma ceil_div_bound (a b : Z) : 0 < b -> a <= ceil_div a b * b.
Proof.
  intros Hb. unfold ceil_div.
  pose proof (Z.div_mod (a + b - 1) b ltac:(lia)) as Hdm.
  pose proof (Z.mod_pos_bound (a + b - 1) b Hb). nia.
Qed.

Lemma ceil_div_least (a b k : Z) :
  0 < b -> (k - 1) * b < a -> k <= ceil_div a b.
Proof.
  intros Hb Hk. unfold ceil_div.
  replace k with ((k - 1) + 1) by lia.
  replace (a + b - 1) with ((a - 1) + 1 * b) by lia.
  rewrite Z.div_add by lia.
  apply Z.add_le_mono_r. apply Z.div_le_lower_bound; lia.
Qed.

Lemma chunk_ranges_some_chain (n max_words overlap : Z) (fuel : nat)
    (ranges : list (Z * Z)) :
  0 <= overlap < max_words -> 0 < n ->
  chunk_ranges fuel n max_words overlap = Some ranges ->
  chain n max_words overlap 0 ranges.
Proof.
  intros Hov Hn Hsome.
  destruct (chunk_ranges_chain n max_words overlap
              ltac:(lia) ltac:(lia) (Z.to_nat n) Hn ltac:(nia))
    as (ranges0 & Hsome0 & Hchain & _).
  apply (chunk_ranges_more _ _ _ _ (Nat.max fuel (Z.to_nat n))) in Hsome;
    [| lia].
  apply (chunk_ranges_more _ _ _ _ (Nat.max fuel (Z.to_nat n))) in Hsome0;
    [| lia].
  congruence.
Qed.

Lemma slice_app {A} (l : list A) (a b c : Z) :
  0 <= a -> a <= b -> b <= c -> c <= len l ->
  slice l a c = slice l a b ++ slice l b c.
Proof.
  intros Ha Hab Hbc Hc. unfold slice, clamp.
  destruct (Z.ltb_spec a 0); [lia |]. destruct (Z.ltb_spec b 0); [lia |].
  destruct (Z.ltb_spec c 0); [lia |].
  rewrite !Z.min_l by lia.
  replace (Z.to_nat b) with (Z.to_nat (b - a) + Z.to_nat a)%nat by lia.
  rewrite <- skipn_skipn.
  set (m := skipn (Z.to_nat a) l).
  replace (Z.to_nat (c - a)) with (Z.to_nat (b - a) + Z.to_nat (c - b))%nat
    by lia.
  rewrite firstn_skipn_comm.
  set (X := firstn (Z.to_nat (b - a) + Z.to_nat (c - b)) m).
  replace (firstn (Z.to_nat (b - a)) m) with (firstn (Z.to_nat (b - a)) X).
  - now rewrite firstn_skipn.
  - unfold X. rewrite firstn_firstn. f_equal. lia.
Qed.

Lemma split_chunk_of (words : list str) (r : Z * Z) :
  Forall is_word words ->
  split (chunk_of words r) = slice words (fst r) (snd r).
Proof.
  intros H. unfold chunk_of. now apply split_join, Forall_slice.
Qed.

(** ** The properties of the chunker *)

(** C2 (coverage).  For [max_words > 0] and [0 <= overlap < max_words],
    the chunker returns, and the word-index ranges of its chunks cover
    [0, N) without a gap, [N] being the number of words of the text: every
    word index lies in a range, every range lies in [0, N], the first range
    starts at 0, the last one ends at [N], and a range starts no later than
    the one before it ends.  No chunk is the empty string, and a text
    without words gives no chunk at all. *)
Theorem chunker_coverage (text : str) (max_words overlap : Z) (fuel : nat) :
  0 < max_words -> 0 <= overlap < max_words ->
  (length (split text) <= fuel)%nat ->
  exists ranges,
    chunk_ranges fuel (len (split text)) max_words overlap = Some ranges
    /\ chunk_text_by_words fuel text max_words overlap
       = Some (List.map (chunk_of (split text)) ranges)
    /\ (forall i, 0 <= i < len (split text) ->
          exists r, In r ranges /\ in_range r i)
    /\ (forall r, In r ranges ->
          0 <= fst r /\ fst r < snd r /\ snd r <= len (split text))
    /\ (0 < len (split text) ->
          (exists e, hd_error ranges = Some (0, e))
          /\ snd (last ranges (0, 0)) = len (split text))
    /\ (forall i r1 r2,
          nth_error ranges i = Some r1 -> nth_error ranges (S i) = Some r2 ->
          fst r2 <= snd r1)
    /\ (forall r, In r ranges -> chunk_of (split text) r <> [])
    /\ (len (split text) = 0 -> ranges = []).
Proof.
  intros Hmw Hov Hfuel. rewrite chunks_of_ranges.
  pose proof (split_words text) as Hwords.
  set (words := split text) in *. set (n := len words).
  assert (Hn : 0 <= n) by apply len_nonneg.
  destruct (Z.eq_dec n 0) as [Hz | Hnz].
  - exists []. unfold chunk_ranges. rewrite Hz. cbn.
    repeat split; try reflexivity; try lia; try contradiction.
    intros [| i] r1 r2; discriminate.
  - destruct (chunk_ranges_chain n max_words overlap
                ltac:(lia) ltac:(lia) fuel ltac:(lia))
      as (ranges & Hsome & Hchain & _).
    { unfold n, len. nia. }
    exists ranges. rewrite Hsome. split; [reflexivity |].
    split; [reflexivity |].
    split.
    { intros i Hi. eapply chain_covers; [| | exact Hchain | exact Hi]; lia. }
    assert (Hin : forall r, In r ranges ->
              0 <= fst r /\ fst r < snd r /\ snd r <= n).
    { intros r Hr.
      destruct (chain_in n max_words overlap ltac:(lia) ltac:(lia)
                  0 ranges Hchain r Hr) as (? & ? & ? & _). lia. }
    split; [exact Hin |].
    split.
    { intros _. split.
      - destruct (chain_head n max_words overlap ltac:(lia) ltac:(lia)
                    0 ranges Hchain) as (tl & -> & _). now eexists.
      - eapply chain_last_end; [| | exact Hchain]; lia. }
    split.
    { intros i r1 r2 H1 H2.
      destruct (chain_consecutive n max_words overlap ltac:(lia) ltac:(lia)
                  0 ranges Hchain i r1 r2 H1 H2) as (_ & _ & _ & ? & _).
      lia. }
    split; [| lia].
    intros r Hr. destruct (Hin r Hr) as (? & ? & ?). unfold chunk_of.
    apply join_not_empty; [| now apply Forall_slice].
    apply slice_not_empty; fold n; lia.
Qed.

Lemma chunker_coverage_witness :
  exists ranges,
    chunk_text_by_words 5 (lit "a b c d e") 2 1
    = Some (List.map (chunk_of (split (lit "a b c d e"))) ranges)
    /\ forall i, 0 <= i < len (split (lit "a b c d e")) ->
         exists r, In r ranges /\ in_range r i.
Proof.
  destruct (chunker_coverage (lit "a b c d e") 2 1 5)
    as (ranges & _ & H2 & H3 & _);
    [lia | lia | vm_compute; lia |].
  exists ranges. split; assumption.
Defined.

(** C3 (termination).  For [0 <= overlap < max_words] the loop is left
    after at most [ceil(N / (max_words - overlap))] iterations, so the
    chunker returns at most that many chunks, and the end index of a chunk
    is strictly greater than the end index of the chunk before it. *)
Theorem chunker_terminates (text : str) (max_words overlap : Z) :
  0 <= overlap < max_words ->
  exists ranges,
    chunk_ranges (Z.to_nat (ceil_div (len (split text))
                                     (max_words - overlap)))
                 (len (split text)) max_words overlap = Some ranges
    /\ chunk_text_by_words
         (Z.to_nat (ceil_div (len (split text)) (max_words - overlap)))
         text max_words overlap
       = Some (List.map (chunk_of (split text)) ranges)
    /\ len ranges <= ceil_div (len (split text)) (max_words - overlap)
    /\ (forall i r1 r2,
          nth_error ranges i = Some r1 -> nth_error ranges (S i) = Some r2 ->
          snd r1 < snd r2).
Proof.
  intros Hov. rewrite chunks_of_ranges.
  set (n := len (split text)). set (d := max_words - overlap).
  assert (Hn : 0 <= n) by apply len_nonneg.
  assert (Hd : 0 < d) by (unfold d; lia).
  destruct (Z.eq_dec n 0) as [Hz | Hnz].
  - exists []. unfold chunk_ranges. rewrite Hz. cbn.
    split; [reflexivity |]. split; [reflexivity |].
    split; [unfold ceil_div; apply Z.div_pos; lia |].
    intros [| i] r1 r2; discriminate.
  - pose proof (ceil_div_bound n d Hd) as Hb.
    assert (Hc : 0 <= ceil_div n d) by nia.
    destruct (chunk_ranges_chain n max_words overlap
                ltac:(lia) ltac:(lia) (Z.to_nat (ceil_div n d)) ltac:(lia))
      as (ranges & Hsome & Hchain & Hlen).
    { fold d. rewrite Z2Nat.id by exact Hc. lia. }
    exists ranges. rewrite Hsome. split; [reflexivity |].
    split; [reflexivity |].
    split; [apply ceil_div_least; [exact Hd | exact Hlen] |].
    intros i r1 r2 H1 H2.
    destruct (chain_consecutive n max_words overlap ltac:(lia) ltac:(lia)
                0 ranges Hchain i r1 r2 H1 H2) as (_ & _ & _ & _ & ?).
    assumption.
Qed.

Lemma chunker_terminates_witness :
  exists ranges,
    chunk_text_by_words
      (Z.to_nat (ceil_div (len (split (lit "a b c d e"))) (2 - 1)))
      (lit "a b c d e") 2 1
    = Some (List.map (chunk_of (split (lit "a b c d e"))) ranges)
    /\ len ranges <= ceil_div (len (split (lit "a b c d e"))) (2 - 1).
Proof.
  destruct (chunker_terminates (lit "a b c d e") 2 1)
    as (ranges & _ & H2 & H3 & _); [lia |].
  exists ranges. split; assumption.
Defined.

(** C6 (overlap).  With [max_words = 800] and [overlap = 50], a chunk that
    is followed by another one shares exactly [min(50, end)] words with it,
    [end] being its own end index: the next range begins [overlap] words
    before that end, not below 0, and the words in common are the last
    words of the one chunk and the first words of the other. *)
Theorem chunker_overlap (text : str) (fuel : nat) (ranges : list (Z * Z))
    (i : nat) (r1 r2 : Z * Z) :
  chunk_ranges fuel (len (split text)) 800 50 = Some ranges ->
  nth_error ranges i = Some r1 -> nth_error ranges (S i) = Some r2 ->
  chunk_text_by_words fuel text 800 50
  = Some (List.map (chunk_of (split text)) ranges)
  /\ fst r2 = Z.max 0 (snd r1 - 50)
  /\ shared r1 r2 = Z.min 50 (snd r1)
  /\ len (slice (split text) (fst r2) (snd r1)) = Z.min 50 (snd r1)
  /\ split (chunk_of (split text) r1)
     = slice (split text) (fst r1) (fst r2)
       ++ slice (split text) (fst r2) (snd r1)
  /\ split (chunk_of (split text) r2)
     = slice (split text) (fst r2) (snd r1)
       ++ slice (split text) (snd r1) (snd r2).
Proof.
  intros Hsome H1 H2. rewrite chunks_of_ranges, Hsome.
  split; [reflexivity |].
  pose proof (split_words text) as Hwords.
  set (words := split text) in *. set (n := len words) in *.
  assert (Hn : 0 < n).
  { pose proof (len_nonneg words). destruct (Z.eq_dec n 0) as [Hz | ]; [| lia].
    unfold chunk_ranges in Hsome. rewrite Hz in Hsome. cbn in Hsome.
    injection Hsome as <-. destruct i; discriminate. }
  assert (Hchain : chain n 800 50 0 ranges)
    by (apply (chunk_ranges_some_chain n 800 50 fuel); [lia | lia | exact Hsome]).
  destruct (chain_consecutive n 800 50 ltac:(lia) ltac:(lia)
              0 ranges Hchain i r1 r2 H1 H2) as (E1 & E2 & E3 & E4 & E5).
  destruct (chain_in n 800 50 ltac:(lia) ltac:(lia) 0 ranges Hchain r1
              (nth_error_In _ _ H1)) as (A1 & A2 & A3 & _).
  destruct (chain_in n 800 50 ltac:(lia) ltac:(lia) 0 ranges Hchain r2
              (nth_error_In _ _ H2)) as (B1 & B2 & B3 & _).
  split; [lia |]. split; [unfold shared; lia |].
  split; [rewrite len_slice; fold n; lia |].
  rewrite !split_chunk_of by exact Hwords.
  split; apply slice_app; fold n; lia.
Qed.

Lemma chunker_overlap_witness :
  shared (0, 800) (750, 801) = Z.min 50 (snd (0, 800)).
Proof.
  refine (proj1 (proj2 (proj2
    (chunker_overlap (List.concat (repeat (lit "w ") 801)) 2
       [(0, 800); (750, 801)] 0 (0, 800) (750, 801) _ _ _))));
    vm_compute; reflexivity.
Defined.

Lemma while_bounded (words : list str) (max_words overlap : Z) (fuel : nat) :
  0 <= max_words -> Forall is_word words ->
  forall chunks start,
    0 <= start ->
    Forall (fun c => len (split c) <= max_words) chunks ->
    Forall (fun c => len (split c) <= max_words)
           (emitted (while words max_words overlap fuel chunks start)).
Proof.
  intros Hmw Hwords.
  induction fuel as [| fuel IH]; intros chunks start Hstart Hchunks;
    [exact Hchunks |].
  cbn [while]. unfold iteration.
  destruct (Z.ltb_spec start (len words)) as [Hlt | Hge]; [| exact Hchunks].
  set (end_ := Z.min (start + max_words) (len words)).
  assert (Hnew : Forall (fun c => len (split c) <= max_words)
                   (chunks ++ [join SP (slice words start end_)])).
  { apply Forall_app. split; [exact Hchunks |]. constructor; [| constructor].
    rewrite split_join by now apply Forall_slice.
    rewrite len_slice; unfold end_; lia. }
  destruct (end_ =? len words); [exact Hnew |].
  apply IH; [lia | exact Hnew].
Qed.

(** C7 (boundedness).  For [max_words > 0] and [overlap >= 0], every chunk
    the loop has appended, after any number of iterations, has at most
    [max_words] words; so has every chunk of a returned list. *)
Theorem chunker_bounded (text : str) (max_words overlap : Z) (fuel : nat) :
  0 < max_words -> 0 <= overlap ->
  (forall c,
     In c (emitted (while (split text) max_words overlap fuel [] 0)) ->
     len (split c) <= max_words)
  /\ (forall chunks,
        chunk_text_by_words fuel text max_words overlap = Some chunks ->
        forall c, In c chunks -> len (split c) <= max_words).
Proof.
  intros Hmw Hov.
  assert (H : Forall (fun c => len (split c) <= max_words)
                (emitted (while (split text) max_words overlap fuel [] 0))).
  { apply while_bounded; [lia | apply split_words | lia | constructor]. }
  rewrite Forall_forall in H. split; [exact H |].
  intros chunks Hsome c Hc. unfold chunk_text_by_words in Hsome.
  destruct (negb (truthy (split text))).
  - injection Hsome as <-. destruct Hc.
  - destruct (while (split text) max_words overlap fuel [] 0) eqn:Hrun;
      [discriminate |].
    injection Hsome as <-. now apply H.
Qed.

Lemma chunker_bounded_witness :
  In (lit "a b") (emitted (while (split (lit "a b c d e")) 2 3 4 [] 0))
  /\ len (split (lit "a b")) <= 2.
Proof.
  assert (H : In (lit "a b")
                (emitted (while (split (lit "a b c d e")) 2 3 4 [] 0)))
    by (vm_compute; left; reflexivity).
  split; [exact H |].
  exact (proj1 (chunker_bounded (lit "a b c d e") 2 3 4
                  ltac:(lia) ltac:(lia)) (lit "a b") H).
Defined.

Lemma while_stuck (words : list str) (max_words overlap : Z) :
  0 < max_words -> max_words <= overlap -> max_words < len words ->
  forall chunks,
    iteration words max_words overlap chunks 0
    = Continue (chunks ++ [chunk_of words (0, max_words)]) 0.
Proof.
  intros Hmw Hov Hn chunks. unfold iteration, chunk_of. cbn [fst snd Z.add].
  destruct (Z.ltb_spec 0 (len words)); [| lia].
  rewrite Z.min_l by lia.
  destruct (Z.eqb_spec max_words (len words)); [lia |].
  now rewrite Z.max_l by lia.
Qed.

(** C8 (no progress).  For [overlap >= max_words > 0] and a text of more
    than [max_words] words, an iteration that starts at word 0 appends the
    chunk of the first [max_words] words and leaves the cursor at 0; so
    the loop is still running after any number of iterations, with the
    cursor at 0, and the function returns nothing. *)
Theorem chunker_no_progress (text : str) (max_words overlap : Z)
    (fuel : nat) :
  0 < max_words -> max_words <= overlap ->
  max_words < len (split text) ->
  (forall chunks,
     iteration (split text) max_words overlap chunks 0
     = Continue (chunks ++ [chunk_of (split text) (0, max_words)]) 0)
  /\ while (split text) max_words overlap fuel [] 0
     = Continue (repeat (chunk_of (split text) (0, max_words)) fuel) 0
  /\ chunk_text_by_words fuel text max_words overlap = None.
Proof.
  intros Hmw Hov Hn.
  pose proof (while_stuck (split text) max_words overlap Hmw Hov Hn) as Hit.
  split; [exact Hit |].
  assert (Hrun : forall k chunks,
            while (split text) max_words overlap k chunks 0
            = Continue
                (chunks ++ repeat (chunk_of (split text) (0, max_words)) k) 0).
  { induction k as [| k IH]; intros chunks; cbn [while repeat].
    - now rewrite app_nil_r.
    - rewrite Hit, IH, <- app_assoc. reflexivity. }
  split; [apply (Hrun fuel []) |].
  unfold chunk_text_by_words. rewrite (Hrun fuel []).
  destruct (split text); [cbn in Hn; lia | reflexivity].
Qed.

Lemma chunker_no_progress_witness :
  chunk_text_by_words 1000 (lit "a b c") 2 2 = None.
Proof.
  apply (chunker_no_progress (lit "a b c") 2 2 1000);
    [lia | lia | vm_compute; reflexivity].
Defined.

(** ** The monad *)

Lemma bind_ret {A B} (a : A) (k : A -> M B) : bind (ret a) k = k a.
Proof. unfold bind, ret. now destruct (k a). Qed.

Lemma bind_emit {B} (ev : event) (k : unit -> M B) :
  bind (emit ev) k = (fst (k tt), ev :: snd (k tt)).
Proof. unfold bind, emit. now destruct (k tt). Qed.

Lemma bind_ok {A B} (a : A) (log : list event) (k : A -> M B) :
  bind (Ok a, log) k = (fst (k a), log ++ snd (k a)).
Proof. unfold bind. now destruct (k a). Qed.

Lemma bind_raise {A B} (e : exn) (k : A -> M B) :
  bind (raise e) k = raise e.
Proof. reflexivity. Qed.

Lemma summarizer_calls_app (l1 l2 : list event) :
  summarizer_calls (l1 ++ l2) = summarizer_calls l1 ++ summarizer_calls l2.
Proof. apply flat_map_app. Qed.

(** ** The chunked summarizer with a pipeline that does not raise *)

Lemma summarizer_calls_chunk_log (total idx : Z) (chunks : list str) :
  summarizer_calls (chunk_log total idx chunks)
  = List.map (fun c => (c, 130, 50)) chunks.
Proof.
  revert idx. induction chunks as [| c rest IH]; intros idx; [reflexivity |].
  cbn. now rewrite <- (IH (idx + 1)).
Qed.

Lemma call_summarizer_stub (f : str -> Z -> Z -> str) (input : str)
    (mx mn : Z) :
  call_summarizer (stub f) input mx mn
  = (Ok (f input mx mn), [SummarizerCall input mx mn]).
Proof. reflexivity. Qed.

Lemma summarize_chunks_stub (f : str -> Z -> Z -> str) (total : Z)
    (chunks : list str) :
  forall idx partial_summaries,
    summarize_chunks (stub f) total idx chunks partial_summaries
    = (Ok (partial_summaries ++ List.map (fun c => f c 130 50) chunks),
       chunk_log total idx chunks).
Proof.
  induction chunks as [| c rest IH]; intros idx acc.
  - cbn. now rewrite app_nil_r.
  - cbn [summarize_chunks]. rewrite call_summarizer_stub, bind_ok.
    cbn beta. rewrite bind_emit, IH. cbn. now rewrite <- app_assoc.
Qed.

Lemma summarize_long_text_chunks (fuel : nat) (w : world) (p : Pipeline)
    (text : str) (chunks : list str) :
  get_summarizer w = ret p ->
  chunk_text_by_words fuel text 800 50 = Some chunks ->
  summarize_long_text fuel w text
  = if negb (truthy chunks) then ret []
    else if len chunks =? 1 then call_summarizer p (hd [] chunks) 130 50
    else
      emit StProgressNew ;;;
      partial_summaries <- summarize_chunks p (len chunks) 1 chunks [] ;;
      emit StProgressEmpty ;;;
      final <- call_summarizer p (join SP partial_summaries) 160 60 ;;
      ret final.
Proof.
  intros Hget Hchunks. unfold summarize_long_text.
  now rewrite Hget, bind_ret, Hchunks.
Qed.

Lemma chunk_ranges_2000 (fuel : nat) :
  (3 <= fuel)%nat ->
  chunk_ranges fuel 2000 800 50 = Some [(0, 800); (750, 1550); (1500, 2000)].
Proof.
  intros H. now apply (chunk_ranges_more 2000 800 50 3 fuel).
Qed.

Lemma chunk_ranges_single (fuel : nat) (n max_words overlap : Z) :
  0 < n <= max_words -> (1 <= fuel)%nat ->
  chunk_ranges fuel n max_words overlap = Some [(0, n)].
Proof.
  intros Hn Hfuel. apply (chunk_ranges_more n max_words overlap 1 fuel _ Hfuel).
  unfold chunk_ranges. destruct (Z.eqb_spec n 0); [lia |].
  cbn [range_while]. unfold range_iteration.
  destruct (Z.ltb_spec 0 n); [| lia]. cbn [Z.add app].
  rewrite Z.min_r by lia. now rewrite Z.eqb_refl.
Qed.

Lemma summarize_long_text_multi (w : world) (f : str -> Z -> Z -> str) :
  get_summarizer w = ret (stub f) ->
  forall fuel text chunks,
    chunk_text_by_words fuel text 800 50 = Some chunks ->
    1 < len chunks ->
    summarize_long_text fuel w text
    = (Ok (f (join SP (List.map (fun c => f c 130 50) chunks)) 160 60),
       StProgressNew :: chunk_log (len chunks) 1 chunks
       ++ [StProgressEmpty;
           SummarizerCall
             (join SP (List.map (fun c => f c 130 50) chunks)) 160 60]).
Proof.
  intros Hget fuel text chunks Hchunks Hlen.
  rewrite (summarize_long_text_chunks fuel w (stub f) text chunks Hget Hchunks).
  destruct chunks as [| c0 rest]; [cbn in Hlen; lia |]. cbn [truthy negb].
  destruct (Z.eqb_spec (len (c0 :: rest)) 1); [lia |].
  rewrite bind_emit, summarize_chunks_stub, bind_ok. cbn beta.
  rewrite bind_emit, call_summarizer_stub, bind_ok. cbn.
  reflexivity.
Qed.

(** ** The properties of the chunked summarizer *)

(** C1 (multi-chunk).  With a Summarizer that is loaded and does not
    raise, a text that chunks into more than one chunk is summarized by
    one call per chunk, in chunk order, with [max_length=130] and
    [min_length=50], followed by exactly one call with [max_length=160] and
    [min_length=60] on the per-chunk summaries joined by single spaces; the
    result of that last call is returned.  A text of 2000 words gives
    [ceil((2000-800)/750)+1 = 3] chunks, hence three per-chunk calls and
    one final call. *)
Theorem summarize_multi_chunk (w : world) (f : str -> Z -> Z -> str) :
  get_summarizer w = ret (stub f) ->
  (forall fuel text chunks,
     chunk_text_by_words fuel text 800 50 = Some chunks ->
     1 < len chunks ->
     outcome (summarize_long_text fuel w text)
     = Ok (f (join SP (List.map (fun c => f c 130 50) chunks)) 160 60)
     /\ summarizer_calls (events (summarize_long_text fuel w text))
        = List.map (fun c => (c, 130, 50)) chunks
          ++ [(join SP (List.map (fun c => f c 130 50) chunks), 160, 60)]
     /\ events (summarize_long_text fuel w text)
        = StProgressNew :: chunk_log (len chunks) 1 chunks
          ++ [StProgressEmpty;
              SummarizerCall
                (join SP (List.map (fun c => f c 130 50) chunks)) 160 60])
  /\ (forall fuel text,
        len (split text) = 2000 -> (3 <= fuel)%nat ->
        exists chunks,
          chunk_text_by_words fuel text 800 50 = Some chunks
          /\ len chunks = ceil_div (2000 - 800) 750 + 1
          /\ len chunks = 3
          /\ len (summarizer_calls (events (summarize_long_text fuel w text)))
             = 3 + 1).
Proof.
  intros Hget.
  pose proof (summarize_long_text_multi w f Hget) as Hmulti.
  split.
  - intros fuel text chunks Hchunks Hlen.
    rewrite (Hmulti fuel text chunks Hchunks Hlen).
    split; [reflexivity |]. split; [| reflexivity].
    unfold events. cbn [snd summarizer_calls flat_map app].
    change (summarizer_calls
              (chunk_log (len chunks) 1 chunks
               ++ [StProgressEmpty;
                   SummarizerCall
                     (join SP (List.map (fun c => f c 130 50) chunks)) 160 60])
            = List.map (fun c => (c, 130, 50)) chunks
              ++ [(join SP (List.map (fun c => f c 130 50) chunks), 160, 60)]).
    now rewrite summarizer_calls_app, summarizer_calls_chunk_log.
  - intros fuel text Hn Hfuel.
    exists (List.map (chunk_of (split text))
              [(0, 800); (750, 1550); (1500, 2000)]).
    assert (Hchunks : chunk_text_by_words fuel text 800 50
              = Some (List.map (chunk_of (split text))
                        [(0, 800); (750, 1550); (1500, 2000)])).
    { now rewrite chunks_of_ranges, Hn, chunk_ranges_2000. }
    split; [exact Hchunks |]. split; [reflexivity |]. split; [reflexivity |].
    rewrite (Hmulti fuel text _ Hchunks) by (cbn; lia).
    reflexivity.
Qed.

Lemma summarize_multi_chunk_witness :
  summarizer_calls (events (summarize_long_text 2 echo_world long_text))
  = [(chunk_of (split long_text) (0, 800), 130, 50);
     (chunk_of (split long_text) (750, 801), 130, 50);
     (join SP [chunk_of (split long_text) (0, 800);
               chunk_of (split long_text) (750, 801)], 160, 60)].
Proof.
  refine (proj1 (proj2 (proj1
    (summarize_multi_chunk echo_world (fun input _ _ => input) eq_refl)
    2%nat long_text
    (List.map (chunk_of (split long_text)) [(0, 800); (750, 801)]) _ _))).
  - vm_compute. reflexivity.
  - vm_compute. reflexivity.
Defined.

(** C4 (single chunk).  With a Summarizer that is loaded, a text of at
    least 1 and at most 800 words is chunked into exactly one chunk, its
    words joined by single spaces; [summarize_long_text] makes exactly one
    Summarizer call, on that chunk with [max_length=130] and
    [min_length=50], and its result is the result of that call (the
    summary, or the exception the call raises): there is no final pass. *)
Theorem summarize_single_chunk (w : world) (p : Pipeline) (text : str)
    (fuel : nat) :
  get_summarizer w = ret p ->
  1 <= len (split text) <= 800 -> (1 <= fuel)%nat ->
  chunk_text_by_words fuel text 800 50 = Some [join SP (split text)]
  /\ summarize_long_text fuel w text
     = call_summarizer p (join SP (split text)) 130 50
  /\ events (summarize_long_text fuel w text)
     = [SummarizerCall (join SP (split text)) 130 50]
  /\ outcome (summarize_long_text fuel w text)
     = match p (join SP (split text)) 130 50 with
       | inr s => Ok s
       | inl e => Raise e
       end.
Proof.
  intros Hget Hn Hfuel.
  assert (Hchunks : chunk_text_by_words fuel text 800 50
                    = Some [join SP (split text)]).
  { rewrite chunks_of_ranges, chunk_ranges_single by lia.
    cbn. unfold chunk_of. cbn [fst snd]. now rewrite slice_all. }
  split; [exact Hchunks |].
  rewrite (summarize_long_text_chunks fuel w p text _ Hget Hchunks).
  cbn [truthy negb len length Z.of_nat Z.eqb Pos.of_succ_nat Pos.eqb hd].
  split; [reflexivity |].
  unfold call_summarizer. rewrite bind_emit.
  destruct (p (join SP (split text)) 130 50); split; reflexivity.
Qed.

Lemma summarize_single_chunk_witness :
  summarize_long_text 1 echo_world (lit " ten  words: a b c d e f g h ")
  = (Ok (lit "ten words: a b c d e f g h"),
     [SummarizerCall (lit "ten words: a b c d e f g h") 130 50]).
Proof.
  rewrite (proj1 (proj2
    (summarize_single_chunk echo_world (stub (fun input _ _ => input))
       (lit " ten  words: a b c d e f g h ") 1 eq_refl
       ltac:(vm_compute; split; discriminate) ltac:(lia)))).
  reflexivity.
Defined.

(** C5 (empty input).  [chunk_text_by_words] of the empty text is the
    empty list, and with a Summarizer that is loaded [summarize_long_text]
    of the empty text returns the empty string and does nothing that is
    logged: the Summarizer is not called. *)
Theorem summarize_empty (w : world) (p : Pipeline) (fuel : nat)
    (max_words overlap : Z) :
  get_summarizer w = ret p ->
  chunk_text_by_words fuel [] max_words overlap = Some []
  /\ summarize_long_text fuel w [] = (Ok [], [])
  /\ summarizer_calls (events (summarize_long_text fuel w [])) = [].
Proof.
  intros Hget. split; [reflexivity |].
  assert (H : summarize_long_text fuel w [] = (Ok [], [])).
  { now rewrite (summarize_long_text_chunks fuel w p [] [] Hget eq_refl). }
  rewrite H. split; reflexivity.
Qed.

Lemma summarize_empty_witness :
  chunk_text_by_words 0 [] 800 50 = Some []
  /\ summarize_long_text 0 echo_world [] = (Ok [], []).
Proof.
  destruct (summarize_empty echo_world (stub (fun input _ _ => input))
              0 800 50 eq_refl) as (H1 & H2 & _).
  split; assumption.
Defined.

(** ** The entry point and the degraded mode *)

Lemma chunk_text_by_words_returns (text : str) (max_words overlap : Z)
    (fuel : nat) :
  0 <= overlap < max_words -> (length (split text) <= fuel)%nat ->
  exists chunks,
    chunk_text_by_words fuel text max_words overlap = Some chunks.
Proof.
  intros Hov Hfuel. rewrite chunks_of_ranges.
  pose proof (len_nonneg (split text)) as Hn.
  destruct (Z.eq_dec (len (split text)) 0) as [Hz | Hnz].
  - exists []. unfold chunk_ranges. now rewrite Hz.
  - destruct (chunk_ranges_chain (len (split text)) max_words overlap
                ltac:(lia) ltac:(lia) fuel ltac:(lia))
      as (ranges & -> & _).
    { unfold len. nia. }
    now eexists.
Qed.

Lemma summarize_long_text_total (fuel : nat) (w : world)
    (f : str -> Z -> Z -> str) (text : str) :
  get_summarizer w = ret (stub f) -> (length (split text) <= fuel)%nat ->
  exists s, outcome (summarize_long_text fuel w text) = Ok s.
Proof.
  intros Hget Hfuel.
  destruct (chunk_text_by_words_returns text 800 50 fuel ltac:(lia) Hfuel)
    as (chunks & Hchunks).
  destruct (Z_le_gt_dec (len chunks) 1) as [Hle | Hgt].
  - rewrite (summarize_long_text_chunks fuel w _ text chunks Hget Hchunks).
    destruct chunks as [| c [| c' rest]].
    + now exists [].
    + cbn. now eexists.
    + unfold len in Hle. cbn [length] in Hle. lia.
  - rewrite (summarize_long_text_multi w f Hget fuel text chunks Hchunks)
      by lia.
    now eexists.
Qed.

Lemma extract_without_nlp (lower : str -> str) (w : world) (text : str) :
  outcome (get_nlp w) = Ok None ->
  extract_entities_and_actions lower w text
  = (Ok {| x_deadlines := []; x_people := []; x_action_items := [] |},
     events (get_nlp w)).
Proof.
  intros Hnlp. unfold extract_entities_and_actions.
  destruct (get_nlp w) as [r log]. cbn in Hnlp. subst r.
  rewrite bind_ok. cbn. now rewrite app_nil_r.
Qed.

Lemma no_nlp_bind {A B} (m : M A) (k : A -> M B) :
  no_nlp m -> (forall a, no_nlp (k a)) -> no_nlp (bind m k).
Proof.
  unfold no_nlp. intros Hm Hk. destruct m as [[a | e |] log]; cbn in *;
    [| exact Hm | exact Hm].
  specialize (Hk a). destruct (k a) as [r log']. cbn in *.
  unfold nlp_calls in *. now rewrite flat_map_app, Hm, Hk.
Qed.

Lemma no_nlp_get_nlp (w : world) : no_nlp (get_nlp w).
Proof.
  unfold get_nlp. destruct (spacy_load w); [| reflexivity].
  destruct (spacy_download_and_load w); reflexivity.
Qed.

Lemma no_nlp_call_summarizer (p : Pipeline) (input : str) (mx mn : Z) :
  no_nlp (call_summarizer p input mx mn).
Proof.
  unfold call_summarizer. apply no_nlp_bind; [reflexivity |].
  intros _. now destruct (p input mx mn).
Qed.

Lemma no_nlp_summarize_chunks (p : Pipeline) (total : Z)
    (chunks : list str) :
  forall idx acc, no_nlp (summarize_chunks p total idx chunks acc).
Proof.
  induction chunks as [| c rest IH]; intros idx acc; [reflexivity |].
  cbn [summarize_chunks]. apply no_nlp_bind;
    [apply no_nlp_call_summarizer |].
  intros s. apply no_nlp_bind; [reflexivity |]. intros _. apply IH.
Qed.

Lemma no_nlp_summarize_long_text (fuel : nat) (w : world) (text : str) :
  no_nlp (summarize_long_text fuel w text).
Proof.
  unfold summarize_long_text. apply no_nlp_bind.
  - unfold get_summarizer. destruct (load_pipeline w _); [| reflexivity].
    destruct (load_pipeline w _); reflexivity.
  - intros p. destruct (chunk_text_by_words fuel text 800 50) as [chunks |];
      [| reflexivity].
    destruct (negb (truthy chunks)); [reflexivity |].
    destruct (len chunks =? 1); [apply no_nlp_call_summarizer |].
    apply no_nlp_bind; [reflexivity |]. intros _.
    apply no_nlp_bind; [apply no_nlp_summarize_chunks |]. intros partial.
    apply no_nlp_bind; [reflexivity |]. intros _.
    apply no_nlp_bind; [apply no_nlp_call_summarizer |]. reflexivity.
Qed.

(** C9 (blank input).  When the text area holds nothing but whitespace,
    or nothing at all, the [run_clicked] branch does one thing: it shows
    the warning that asks for text.  It raises nothing, and neither the
    Summarizer nor the entity extractor is loaded or called, whatever the
    state of the models. *)
Theorem run_clicked_rejects_blank (lower : str -> str) (fuel : nat)
    (w : world) (user_text : str) :
  forallb isspace user_text = true ->
  run_clicked lower fuel w user_text
  = (Ok tt, [StWarning "Please paste some text first."])
  /\ summarizer_calls (events (run_clicked lower fuel w user_text)) = []
  /\ nlp_calls (events (run_clicked lower fuel w user_text)) = [].
Proof.
  intros Hblank.
  assert (H : run_clicked lower fuel w user_text
              = (Ok tt, [StWarning "Please paste some text first."])).
  { unfold run_clicked. now rewrite strip_whitespace. }
  rewrite H. repeat split.
Qed.

Lemma run_clicked_rejects_blank_witness :
  run_clicked (fun s => s) 0 echo_world (lit "   ")
  = (Ok tt, [StWarning "Please paste some text first."]).
Proof.
  exact (proj1 (run_clicked_rejects_blank (fun s => s) 0 echo_world
                  (lit "   ") eq_refl)).
Defined.

(** C10 (degraded mode).  When [get_nlp] gives [None], the extraction
    calls no model and returns three empty lists without raising; the
    result of [analyze_notes] is then the result of [summarize_long_text]
    with these empty lists beside it, and an exception of [analyze_notes]
    can only be one of the summary.  With a Summarizer that is loaded and
    does not raise, [analyze_notes] returns. *)
Theorem analyze_degraded (lower : str -> str) (fuel : nat) (w : world)
    (text : str) :
  outcome (get_nlp w) = Ok None ->
  extract_entities_and_actions lower w text
  = (Ok {| x_deadlines := []; x_people := []; x_action_items := [] |},
     events (get_nlp w))
  /\ nlp_calls (events (analyze_notes lower fuel w text)) = []
  /\ outcome (analyze_notes lower fuel w text)
     = match outcome (summarize_long_text fuel w text) with
       | Ok s => Ok {| summary := s; deadlines := []; people := [];
                       action_items := [] |}
       | Raise e => Raise e
       | Running => Running
       end
  /\ (forall f,
        get_summarizer w = ret (stub f) ->
        (length (split text) <= fuel)%nat ->
        exists s,
          outcome (summarize_long_text fuel w text) = Ok s
          /\ outcome (analyze_notes lower fuel w text)
             = Ok {| summary := s; deadlines := []; people := [];
                     action_items := [] |}).
Proof.
  intros Hnlp.
  pose proof (extract_without_nlp lower w text Hnlp) as Hx.
  split; [exact Hx |].
  assert (Hout : outcome (analyze_notes lower fuel w text)
     = match outcome (summarize_long_text fuel w text) with
       | Ok s => Ok {| summary := s; deadlines := []; people := [];
                       action_items := [] |}
       | Raise e => Raise e
       | Running => Running
       end).
  { unfold analyze_notes.
    destruct (summarize_long_text fuel w text) as [[s | e |] log];
      [| reflexivity | reflexivity].
    rewrite bind_ok. cbn beta. rewrite Hx, bind_ok. reflexivity. }
  split.
  - unfold analyze_notes. apply no_nlp_bind;
      [apply no_nlp_summarize_long_text |].
    intros s. apply no_nlp_bind; [| reflexivity].
    unfold no_nlp. rewrite Hx. apply no_nlp_get_nlp.
  - split; [exact Hout |].
    intros f Hget Hfuel.
    destruct (summarize_long_text_total fuel w f text Hget Hfuel)
      as (s & Hs).
    exists s. split; [exact Hs |]. now rewrite Hout, Hs.
Qed.

Lemma analyze_degraded_witness :
  outcome (analyze_notes (fun s => s) 1 echo_world (lit "ship it on Friday"))
  = Ok {| summary := lit "ship it on Friday"; deadlines := [];
          people := []; action_items := [] |}.
Proof.
  rewrite (proj1 (proj2 (proj2
    (analyze_degraded (fun s => s) 1 echo_world (lit "ship it on Friday")
       eq_refl)))).
  reflexivity.
Defined.

(** ** Further properties of the chunker *)

Lemma ceil_div_unique (a b k : Z) :
  0 < b -> (k - 1) * b < a <= k * b -> ceil_div a b = k.
Proof.
  intros Hb Hk. apply Z.le_antisymm; [| apply ceil_div_least; lia].
  unfold ceil_div. apply Z.lt_succ_r.
  apply Z.div_lt_upper_bound; [exact Hb | nia].
Qed.

Lemma chunk_ranges_returns_chain (n max_words overlap : Z) (fuel : nat) :
  0 <= overlap < max_words -> 0 < n -> n <= Z.of_nat fuel ->
  exists ranges,
    chunk_ranges fuel n max_words overlap = Some ranges
    /\ chain n max_words overlap 0 ranges.
Proof.
  intros Hov Hn Hfuel.
  destruct (chunk_ranges_chain n max_words overlap
              ltac:(lia) ltac:(lia) fuel Hn ltac:(nia))
    as (ranges & Hsome & Hchain & _).
  now exists ranges.
Qed.

Section ChainFacts.

Variable n : Z.
Variables max_words overlap : Z.
Hypothesis overlap_nonneg : 0 <= overlap.
Hypothesis overlap_small : overlap < max_words.

(** How many ranges there are from the cursor [s] on. *)
Lemma chain_count (s : Z) (tl : list (Z * Z)) :
  chain n max_words overlap s tl ->
  (n - s <= max_words -> len tl = 1)
  /\ (max_words < n - s ->
      (len tl - 2) * (max_words - overlap) < n - s - max_words
      /\ n - s - max_words <= (len tl - 1) * (max_words - overlap)).
Proof using All.
  induction 1 as [s Hs Hn | s tl Hs Hn Hc [IH1 IH2]].
  - split; [reflexivity | lia].
  - split; [lia |]. intros _.
    replace (len ((s, s + max_words) :: tl)) with (len tl + 1)
      by (unfold len; cbn [length]; lia).
    destruct (Z_le_gt_dec (n - (s + max_words - overlap)) max_words)
      as [Hle | Hgt].
    + rewrite (IH1 Hle). lia.
    + destruct (IH2 ltac:(lia)) as [Hlo Hhi]. nia.
Qed.

(** The range number [k] from the cursor [s] on. *)
Lemma chain_nth (s : Z) (tl : list (Z * Z)) :
  chain n max_words overlap s tl ->
  forall k r,
    nth_error tl k = Some r ->
    r = (s + Z.of_nat k * (max_words - overlap),
         Z.min (s + Z.of_nat k * (max_words - overlap) + max_words) n).
Proof using All.
  induction 1 as [s Hs Hn | s tl Hs Hn Hc IH]; intros k r Hr.
  - destruct k as [| [| k]]; try discriminate.
    cbn in Hr. injection Hr as <-. f_equal; lia.
  - destruct k as [| k].
    + cbn in Hr. injection Hr as <-. f_equal; lia.
    + cbn [nth_error] in Hr. rewrite (IH k r Hr). f_equal; lia.
Qed.

(** The words from the cursor [s] on are the words of the first range
    followed, for every later range, by its words past the first
    [overlap]. *)
Lemma chain_words {A} (l : list A) (s : Z) (tl : list (Z * Z)) :
  n = len l ->
  chain n max_words overlap s tl ->
  exists e rest,
    tl = (s, e) :: rest
    /\ s < e <= n
    /\ slice l s n
       = slice l s e
         ++ List.concat
              (List.map (fun r => slice l (fst r + overlap) (snd r)) rest).
Proof using All.
  intros Hlen. induction 1 as [s Hs Hn | s tl Hs Hn Hc IH].
  - exists n, []. split; [reflexivity |]. split; [lia |].
    cbn. now rewrite app_nil_r.
  - destruct IH as (e' & rest & -> & He' & IH).
    exists (s + max_words), ((s + max_words - overlap, e') :: rest).
    split; [reflexivity |]. split; [lia |].
    destruct (chain_head n max_words overlap overlap_nonneg overlap_small
                _ _ Hc) as (tl' & Heq & Hhd).
    injection Heq as He'' _.
    cbn [List.map List.concat fst snd].
    replace (s + max_words - overlap + overlap) with (s + max_words) by lia.
    rewrite (slice_app l s (s + max_words) n) by lia. f_equal.
    rewrite (slice_app l (s + max_words - overlap) (s + max_words) n)
      in IH by lia.
    rewrite (slice_app l (s + max_words - overlap) (s + max_words) e')
      in IH by lia.
    rewrite <- app_assoc in IH. now apply app_inv_head in IH.
Qed.

End ChainFacts.

Lemma skipn_slice {A} (l : list A) (a b k : Z) :
  0 <= a -> 0 <= k -> a + k <= b -> b <= len l ->
  skipn (Z.to_nat k) (slice l a b) = slice l (a + k) b.
Proof.
  intros Ha Hk Hab Hb.
  rewrite (slice_app l a (a + k) b) by lia.
  assert (Hlen : length (slice l a (a + k)) = Z.to_nat k).
  { pose proof (len_slice l a (a + k) ltac:(lia) ltac:(lia)) as H.
    unfold len in H. lia. }
  rewrite skipn_app, Hlen, Nat.sub_diag, <- Hlen, skipn_all. reflexivity.
Qed.

Lemma slice_min {A} (l : list A) (a b : Z) :
  0 <= b -> slice l a (Z.min b (len l)) = slice l a b.
Proof.
  intros Hb. pose proof (len_nonneg l) as Hl. unfold slice, clamp.
  destruct (Z.ltb_spec (Z.min b (len l)) 0); [lia |].
  destruct (Z.ltb_spec b 0); [lia |].
  now replace (Z.min (Z.min b (len l)) (len l)) with (Z.min b (len l)) by lia.
Qed.

Lemma while_stuck_forever (words : list str) (max_words overlap : Z) :
  0 < max_words -> max_words <= overlap -> max_words < len words ->
  forall k chunks,
    while words max_words overlap k chunks 0
    = Continue (chunks ++ repeat (chunk_of words (0, max_words)) k) 0.
Proof.
  intros Hmw Hov Hn.
  induction k as [| k IH]; intros chunks; cbn [while repeat].
  - now rewrite app_nil_r.
  - rewrite (while_stuck words max_words overlap Hmw Hov Hn), IH,
      <- app_assoc.
    reflexivity.
Qed.

Lemma chunk_text_by_words_chain (text : str) (max_words overlap : Z)
    (fuel : nat) (chunks : list str) :
  0 <= overlap < max_words ->
  chunk_text_by_words fuel text max_words overlap = Some chunks ->
  (len (split text) = 0 /\ chunks = [])
  \/ (0 < len (split text)
      /\ exists ranges,
           chunks = List.map (chunk_of (split text)) ranges
           /\ chain (len (split text)) max_words overlap 0 ranges).
Proof.
  intros Hov Hsome. rewrite chunks_of_ranges in Hsome.
  pose proof (len_nonneg (split text)) as Hn.
  destruct (chunk_ranges fuel (len (split text)) max_words overlap)
    as [ranges |] eqn:Hr; [| discriminate].
  injection Hsome as <-.
  destruct (Z.eq_dec (len (split text)) 0) as [Hz | Hnz].
  - left. split; [exact Hz |]. unfold chunk_ranges in Hr.
    rewrite Hz in Hr. now injection Hr as <-.
  - right. split; [lia |]. exists ranges. split; [reflexivity |].
    apply (chunk_ranges_some_chain _ _ _ fuel); [lia | lia | exact Hr].
Qed.

(** X1.  For [max_words > 0] and [overlap >= 0] the chunker returns, for
    some number of iterations, exactly when [overlap < max_words] or the
    text has at most [max_words] words. *)
Theorem chunker_returns_iff (text : str) (max_words overlap : Z) :
  0 < max_words -> 0 <= overlap ->
  (exists fuel chunks,
     chunk_text_by_words fuel text max_words overlap = Some chunks)
  <-> (overlap < max_words \/ len (split text) <= max_words).
Proof.
  intros Hmw Hov. split.
  - intros (fuel & chunks & Hsome).
    destruct (Z_lt_ge_dec overlap max_words) as [Hlt | Hge]; [now left |].
    destruct (Z_le_gt_dec (len (split text)) max_words) as [Hle | Hgt];
      [now right |].
    exfalso. unfold chunk_text_by_words in Hsome.
    rewrite (while_stuck_forever (split text) max_words overlap
               Hmw ltac:(lia) ltac:(lia)) in Hsome.
    destruct (split text); [cbn in Hgt; lia | discriminate].
  - intros [Hlt | Hle].
    + exists (length (split text)).
      apply chunk_text_by_words_returns; [lia | lia].
    + exists 1%nat. rewrite chunks_of_ranges.
      pose proof (len_nonneg (split text)) as Hn.
      destruct (Z.eq_dec (len (split text)) 0) as [Hz | Hnz].
      * exists []. unfold chunk_ranges. now rewrite Hz.
      * rewrite chunk_ranges_single by lia. now eexists.
Qed.

Lemma chunker_returns_iff_witness :
  (exists fuel chunks,
     chunk_text_by_words fuel (lit "a b c") 2 2 = Some chunks)
  <-> (2 < 2 \/ len (split (lit "a b c")) <= 2).
Proof.
  apply (chunker_returns_iff (lit "a b c") 2 2); lia.
Defined.

Lemma len_chunks (text : str) (max_words overlap : Z) (fuel : nat)
    (chunks : list str) :
  0 <= overlap < max_words ->
  chunk_text_by_words fuel text max_words overlap = Some chunks ->
  len chunks
  = if len (split text) =? 0 then 0
    else if len (split text) <=? max_words then 1
    else ceil_div (len (split text) - max_words) (max_words - overlap) + 1.
Proof.
  intros Hov Hsome.
  destruct (chunk_text_by_words_chain text max_words overlap fuel chunks
              Hov Hsome) as [[Hz ->] | (Hn & ranges & -> & Hchain)].
  - now rewrite Hz.
  - destruct (Z.eqb_spec (len (split text)) 0); [lia |].
    replace (len (List.map (chunk_of (split text)) ranges))
      with (len ranges) by (unfold len; now rewrite length_map).
    destruct (chain_count _ max_words overlap ltac:(lia) ltac:(lia)
                0 ranges Hchain) as [H1 H2].
    destruct (Z.leb_spec (len (split text)) max_words) as [Hle | Hgt].
    + apply H1. lia.
    + destruct (H2 ltac:(lia)) as [Hlo Hhi].
      rewrite (ceil_div_unique (len (split text) - max_words)
                 (max_words - overlap) (len ranges - 1)) by lia.
      lia.
Qed.

(** X2.  For [0 <= overlap < max_words] the number of chunks is 0 for a
    text without words, 1 for at most [max_words] words, and
    [ceil((N - max_words) / (max_words - overlap)) + 1] for more. *)
Theorem chunk_count (text : str) (max_words overlap : Z) (fuel : nat) :
  0 <= overlap < max_words -> (length (split text) <= fuel)%nat ->
  exists chunks,
    chunk_text_by_words fuel text max_words overlap = Some chunks
    /\ len chunks
       = if len (split text) =? 0 then 0
         else if len (split text) <=? max_words then 1
         else ceil_div (len (split text) - max_words)
                       (max_words - overlap) + 1.
Proof.
  intros Hov Hfuel.
  destruct (chunk_text_by_words_returns text max_words overlap fuel
              Hov Hfuel) as (chunks & Hsome).
  exists chunks. split; [exact Hsome |].
  now apply (len_chunks text max_words overlap fuel).
Qed.

Lemma chunk_count_witness :
  exists chunks,
    chunk_text_by_words 7 (lit "a b c d e f g") 3 1 = Some chunks
    /\ len chunks = ceil_div (7 - 3) (3 - 1) + 1.
Proof.
  exact (chunk_count (lit "a b c d e f g") 3 1 7
           ltac:(lia) ltac:(vm_compute; lia)).
Defined.

(** X3.  For [0 <= overlap < max_words], chunk number [k] (from 0) of a
    returned list is the words
    [words[k * stride : k * stride + max_words]] joined by single spaces,
    where [stride = max_words - overlap]. *)
Theorem chunk_nth (text : str) (max_words overlap : Z) (fuel : nat)
    (chunks : list str) (k : nat) (c : str) :
  0 <= overlap < max_words ->
  chunk_text_by_words fuel text max_words overlap = Some chunks ->
  nth_error chunks k = Some c ->
  c = join SP
        (slice (split text)
               (Z.of_nat k * (max_words - overlap))
               (Z.of_nat k * (max_words - overlap) + max_words)).
Proof.
  intros Hov Hsome Hk.
  destruct (chunk_text_by_words_chain text max_words overlap fuel chunks
              Hov Hsome) as [[_ ->] | (Hn & ranges & -> & Hchain)].
  - destruct k; discriminate.
  - rewrite nth_error_map in Hk.
    destruct (nth_error ranges k) as [r |] eqn:Hr; [| discriminate].
    injection Hk as <-.
    rewrite (chain_nth _ max_words overlap ltac:(lia) ltac:(lia)
               0 ranges Hchain k r Hr).
    unfold chunk_of. cbn [fst snd Z.add]. now rewrite slice_min by nia.
Qed.

Lemma chunk_nth_witness :
  lit "c d e" = join SP (slice (split (lit "a b c d e f g"))
                               (Z.of_nat 1 * (3 - 1))
                               (Z.of_nat 1 * (3 - 1) + 3)).
Proof.
  apply (chunk_nth (lit "a b c d e f g") 3 1 7
           [lit "a b c"; lit "c d e"; lit "e f g"] 1 (lit "c d e"));
    [lia | vm_compute; reflexivity | reflexivity].
Defined.

Lemma chain_later_ranges (n max_words overlap : Z) (s : Z)
    (ranges : list (Z * Z)) :
  0 <= overlap < max_words ->
  chain n max_words overlap s ranges ->
  forall r, In r (List.tl ranges) ->
    0 <= fst r /\ fst r + overlap < snd r /\ snd r <= n.
Proof.
  intros Hov. induction 1 as [s Hs Hn | s tl Hs Hn Hc IH]; intros r Hr.
  - destruct Hr.
  - cbn [List.tl] in Hr.
    destruct (chain_head n max_words overlap ltac:(lia) ltac:(lia) _ _ Hc)
      as (tl' & -> & Hhd).
    destruct Hr as [<- | Hr]; [cbn [fst snd]; lia |].
    apply IH. exact Hr.
Qed.

(** X4.  For [0 <= overlap < max_words] the words of the text are the
    words of the first chunk followed, for every later chunk, by its words
    past the first [overlap]: nothing is lost and nothing but the overlap
    is repeated. *)
Theorem chunks_rebuild_words (text : str) (max_words overlap : Z)
    (fuel : nat) (chunks : list str) :
  0 <= overlap < max_words ->
  chunk_text_by_words fuel text max_words overlap = Some chunks ->
  split text
  = match chunks with
    | [] => []
    | c :: rest =>
        split c
        ++ List.concat
             (List.map (fun c' => skipn (Z.to_nat overlap) (split c')) rest)
    end.
Proof.
  intros Hov Hsome. pose proof (split_words text) as Hwords.
  destruct (chunk_text_by_words_chain text max_words overlap fuel chunks
              Hov Hsome) as [[Hz ->] | (Hn & ranges & -> & Hchain)].
  - destruct (split text); [reflexivity | discriminate].
  - destruct (chain_words _ max_words overlap ltac:(lia) ltac:(lia)
                (split text) 0 ranges eq_refl Hchain)
      as (e & rest & -> & He & Hrebuild).
    rewrite slice_all in Hrebuild. cbn [List.map].
    rewrite split_chunk_of by exact Hwords. cbn [fst snd].
    rewrite Hrebuild at 1. f_equal. f_equal.
    rewrite map_map. apply map_ext_in. intros r Hr.
    rewrite split_chunk_of by exact Hwords.
    destruct (chain_later_ranges _ max_words overlap 0 _ Hov Hchain r Hr)
      as (? & ? & ?).
    symmetry. apply skipn_slice; lia.
Qed.

Lemma chunks_rebuild_words_witness :
  split (lit " a b  c d e f g ")
  = split (lit "a b c")
    ++ List.concat
         (List.map (fun c' => skipn (Z.to_nat 1) (split c'))
                   [lit "c d e"; lit "e f g"]).
Proof.
  apply (chunks_rebuild_words (lit " a b  c d e f g ") 3 1 7
           [lit "a b c"; lit "c d e"; lit "e f g"]);
    [lia | vm_compute; reflexivity].
Defined.

(** X5.  For [0 <= overlap < max_words], a chunk that is followed by
    another one has exactly [max_words] words, and the chunk that follows
    has more than [overlap] words: it brings at least one word that the
    chunk before it does not hold. *)
Theorem chunk_sizes (text : str) (max_words overlap : Z) (fuel : nat)
    (chunks : list str) (i : nat) (c c' : str) :
  0 <= overlap < max_words ->
  chunk_text_by_words fuel text max_words overlap = Some chunks ->
  nth_error chunks i = Some c -> nth_error chunks (S i) = Some c' ->
  len (split c) = max_words /\ overlap < len (split c').
Proof.
  intros Hov Hsome Hc Hc'. pose proof (split_words text) as Hwords.
  destruct (chunk_text_by_words_chain text max_words overlap fuel chunks
              Hov Hsome) as [[_ ->] | (Hn & ranges & -> & Hchain)].
  - destruct i; discriminate.
  - rewrite nth_error_map in Hc, Hc'.
    destruct (nth_error ranges i) as [r |] eqn:Hr; [| discriminate].
    destruct (nth_error ranges (S i)) as [r' |] eqn:Hr'; [| discriminate].
    injection Hc as <-. injection Hc' as <-.
    rewrite !split_chunk_of by exact Hwords.
    destruct (chain_consecutive _ max_words overlap ltac:(lia) ltac:(lia)
                0 ranges Hchain i r r' Hr Hr') as (E1 & E2 & E3 & E4 & E5).
    destruct (chain_in _ max_words overlap ltac:(lia) ltac:(lia)
                0 ranges Hchain r (nth_error_In _ _ Hr)) as (? & ? & ? & _).
    destruct (chain_in _ max_words overlap ltac:(lia) ltac:(lia)
                0 ranges Hchain r' (nth_error_In _ _ Hr')) as (? & ? & ? & _).
    rewrite !len_slice by lia. lia.
Qed.

Lemma chunk_sizes_witness :
  len (split (lit "c d e")) = 3 /\ 1 < len (split (lit "e f g")).
Proof.
  apply (chunk_sizes (lit "a b c d e f g h") 3 1 8
           [lit "a b c"; lit "c d e"; lit "e f g"; lit "g h"] 1
           (lit "c d e") (lit "e f g"));
    [lia | vm_compute; reflexivity | reflexivity | reflexivity].
Defined.

(** X6.  The chunks depend on the words of the text only: a text and its
    words joined by single spaces are chunked alike, whatever the
    parameters. *)
Theorem chunks_ignore_whitespace (text : str) (max_words overlap : Z)
    (fuel : nat) :
  chunk_text_by_words fuel (join SP (split text)) max_words overlap
  = chunk_text_by_words fuel text max_words overlap.
Proof.
  unfold chunk_text_by_words.
  now rewrite (split_join (split text) (split_words text)).
Qed.

Lemma range_while_negative (n max_words overlap : Z) (fuel : nat) :
  0 < max_words -> overlap < 0 ->
  forall ranges s,
    0 <= s -> (0 < fuel)%nat -> n - s < Z.of_nat fuel ->
    exists tl,
      range_while n max_words overlap fuel ranges s = Exit (ranges ++ tl)
      /\ Forall (fun r => s <= fst r) tl.
Proof.
  intros Hmw Hov.
  induction fuel as [| fuel IH]; intros ranges s Hs Hpos Hfuel; [lia |].
  cbn [range_while]. unfold range_iteration.
  destruct (Z.ltb_spec s n) as [Hlt | Hge].
  - destruct (Z.eqb_spec (Z.min (s + max_words) n) n) as [He | He].
    + exists [(s, Z.min (s + max_words) n)]. split; [reflexivity |].
      constructor; [cbn; lia | constructor].
    + rewrite Z.min_l by lia.
      replace (Z.max 0 (s + max_words - overlap))
        with (s + max_words - overlap) by lia.
      destruct (IH (ranges ++ [(s, s + max_words)])
                  (s + max_words - overlap))
        as (tl & Hrun & Hall); [lia | lia | lia |].
      exists ((s, s + max_words) :: tl). rewrite Hrun, <- app_assoc.
      split; [reflexivity |].
      constructor; [cbn; lia |].
      eapply Forall_impl; [| exact Hall]. cbn. intros r Hr. lia.
  - exists []. now rewrite app_nil_r.
Qed.

(** X7.  A negative [overlap] is not refused: for [max_words > 0] and a
    text of more than [max_words] words the chunker still returns, its
    first chunk is the first [max_words] words, and every later chunk
    starts at word [max_words - overlap] or later, so that the word of
    index [max_words] is in no chunk. *)
Theorem chunker_negative_overlap (text : str) (max_words overlap : Z)
    (fuel : nat) :
  0 < max_words -> overlap < 0 -> max_words < len (split text) ->
  (length (split text) < fuel)%nat ->
  exists rest,
    chunk_text_by_words fuel text max_words overlap
    = Some (List.map (chunk_of (split text)) ((0, max_words) :: rest))
    /\ Forall (fun r => max_words - overlap <= fst r) rest
    /\ forall r, In r ((0, max_words) :: rest) -> ~ in_range r max_words.
Proof.
  intros Hmw Hov Hn Hfuel. rewrite chunks_of_ranges.
  set (n := len (split text)) in *.
  assert (Hrun : exists rest,
            chunk_ranges fuel n max_words overlap
            = Some ((0, max_words) :: rest)
            /\ Forall (fun r => max_words - overlap <= fst r) rest).
  { unfold chunk_ranges. destruct (Z.eqb_spec n 0); [lia |].
    destruct fuel as [| fuel]; [lia |].
    cbn [range_while]. unfold range_iteration.
    destruct (Z.ltb_spec 0 n); [| lia]. cbn [Z.add app].
    rewrite Z.min_l by lia.
    destruct (Z.eqb_spec max_words n); [lia |].
    replace (Z.max 0 (max_words - overlap)) with (max_words - overlap)
      by lia.
    destruct (range_while_negative n max_words overlap fuel Hmw Hov
                [(0, max_words)] (max_words - overlap))
      as (tl & -> & Hall); [lia | | | ].
    - unfold n, len in *. lia.
    - unfold n, len in *. lia.
    - exists tl. split; [reflexivity | exact Hall]. }
  destruct Hrun as (rest & -> & Hall).
  exists rest. split; [reflexivity |]. split; [exact Hall |].
  intros r [<- | Hr]; unfold in_range; cbn [fst snd]; [lia |].
  rewrite Forall_forall in Hall. specialize (Hall r Hr). lia.
Qed.

Lemma chunker_negative_overlap_witness :
  exists rest,
    chunk_text_by_words 6 (lit "a b c d e") 2 (-1)
    = Some (List.map (chunk_of (split (lit "a b c d e")))
                     ((0, 2) :: rest))
    /\ Forall (fun r => 2 - -1 <= fst r) rest
    /\ forall r, In r ((0, 2) :: rest) -> ~ in_range r 2.
Proof.
  apply (chunker_negative_overlap (lit "a b c d e") 2 (-1) 6);
    [lia | lia | vm_compute; reflexivity | vm_compute; lia].
Defined.

(** ** Further properties of the chunked summarizer *)

Lemma events_bind {A B} (m : M A) (k : A -> M B) :
  events (bind m k)
  = events m ++ match outcome m with
                | Ok a => events (k a)
                | _ => []
                end.
Proof.
  destruct m as [[a | e |] log]; cbn; [| now rewrite app_nil_r ..].
  now destruct (k a).
Qed.

Lemma outcome_bind {A B} (m : M A) (k : A -> M B) :
  outcome (bind m k)
  = match outcome m with
    | Ok a => outcome (k a)
    | Raise e => Raise e
    | Running => Running
    end.
Proof.
  destruct m as [[a | e |] log]; cbn; [| reflexivity ..].
  now destruct (k a).
Qed.

Lemma call_summarizer_raise (p : Pipeline) (input : str) (mx mn : Z)
    (e : exn) :
  p input mx mn = inl e ->
  call_summarizer p input mx mn = (Raise e, [SummarizerCall input mx mn]).
Proof. intros H. unfold call_summarizer. now rewrite bind_emit, H. Qed.

Lemma call_summarizer_ok (p : Pipeline) (input : str) (mx mn : Z)
    (s : str) :
  p input mx mn = inr s ->
  call_summarizer p input mx mn = (Ok s, [SummarizerCall input mx mn]).
Proof. intros H. unfold call_summarizer. now rewrite bind_emit, H. Qed.

Lemma summarize_chunks_raise (p : Pipeline) (total : Z) (c : str)
    (post : list str) (e : exn) :
  p c 130 50 = inl e ->
  forall pre idx acc,
    Forall (fun c' => exists s, p c' 130 50 = inr s) pre ->
    outcome (summarize_chunks p total idx (pre ++ c :: post) acc) = Raise e
    /\ summarizer_calls
         (events (summarize_chunks p total idx (pre ++ c :: post) acc))
       = List.map (fun c' => (c', 130, 50)) (pre ++ [c]).
Proof.
  intros Hc. induction pre as [| c0 pre IH]; intros idx acc Hpre.
  - cbn [app summarize_chunks].
    now rewrite (call_summarizer_raise p c 130 50 e Hc).
  - inversion Hpre as [| ? ? [s Hs] Hpre']; subst.
    cbn [app summarize_chunks].
    rewrite (call_summarizer_ok p c0 130 50 s Hs), bind_ok. cbn beta.
    rewrite bind_emit.
    destruct (IH (idx + 1) (acc ++ [s]) Hpre') as [Hout Hcalls].
    split; [exact Hout |]. cbn. f_equal. exact Hcalls.
Qed.

(** X8.  When the Summarizer raises on a chunk, having summarized the
    chunks before it, [summarize_long_text] raises that exception: the
    chunks after it are not submitted, there is no final call and no
    summary. *)
Theorem summarizer_failure_stops (w : world) (p : Pipeline) (fuel : nat)
    (text : str) (pre post : list str) (c : str) (e : exn) :
  get_summarizer w = ret p ->
  chunk_text_by_words fuel text 800 50 = Some (pre ++ c :: post) ->
  Forall (fun c' => exists s, p c' 130 50 = inr s) pre ->
  p c 130 50 = inl e ->
  outcome (summarize_long_text fuel w text) = Raise e
  /\ summarizer_calls (events (summarize_long_text fuel w text))
     = List.map (fun c' => (c', 130, 50)) (pre ++ [c]).
Proof.
  intros Hget Hchunks Hpre Hc.
  rewrite (summarize_long_text_chunks fuel w p text _ Hget Hchunks).
  assert (Hne : negb (truthy (pre ++ c :: post)) = false)
    by (destruct pre; reflexivity).
  rewrite Hne.
  destruct (Z.eqb_spec (len (pre ++ c :: post)) 1) as [H1 | H1].
  - destruct pre as [| c0 pre].
    + cbn [app hd]. now rewrite (call_summarizer_raise p c 130 50 e Hc).
    + exfalso. unfold len in H1. cbn [app length] in H1.
      rewrite length_app in H1. cbn [length] in H1. lia.
  - rewrite bind_emit. unfold outcome at 1, events at 1. cbn [fst snd].
    match goal with
    | |- context [fst ?m] =>
        change (fst m) with (outcome m); change (snd m) with (events m)
    end.
    destruct (summarize_chunks_raise p (len (pre ++ c :: post)) c post e Hc
                pre 1 [] Hpre) as [Hout Hcalls].
    rewrite outcome_bind, events_bind, Hout.
    split; [reflexivity |]. cbn [summarizer_calls flat_map app].
    rewrite app_nil_r. exact Hcalls.
Qed.

Lemma summarizer_failure_stops_witness :
  outcome (summarize_long_text 2 flaky_world long_text)
  = Raise (PyException "RuntimeError")
  /\ summarizer_calls (events (summarize_long_text 2 flaky_world long_text))
     = List.map (fun c' => (c', 130, 50))
         ([chunk_of (split long_text) (0, 800)]
          ++ [chunk_of (split long_text) (750, 801)]).
Proof.
  apply (summarizer_failure_stops flaky_world flaky 2 long_text
           [chunk_of (split long_text) (0, 800)] []
           (chunk_of (split long_text) (750, 801))
           (PyException "RuntimeError")).
  - reflexivity.
  - vm_compute. reflexivity.
  - constructor; [| constructor]. eexists. vm_compute. reflexivity.
  - vm_compute. reflexivity.
Defined.

Lemma progress_reports_chunk_log (total : Z) (chunks : list str) :
  forall i,
    progress_reports (chunk_log total (Z.of_nat i) chunks)
    = List.map (fun k => (Z.of_nat k, total)) (seq i (length chunks)).
Proof.
  induction chunks as [| c rest IH]; intros i; [reflexivity |].
  cbn [chunk_log progress_reports flat_map app length seq List.map].
  f_equal. replace (Z.of_nat i + 1) with (Z.of_nat (S i)) by lia.
  apply IH.
Qed.

(** X9.  With a Summarizer that is loaded and does not raise, a text of
    more than one chunk has its progress reported once per chunk, as
    1 of n, 2 of n, ..., n of n; a text of one chunk or none has no
    progress report. *)
Theorem progress_is_reported_per_chunk (w : world)
    (f : str -> Z -> Z -> str) (fuel : nat) (text : str)
    (chunks : list str) :
  get_summarizer w = ret (stub f) ->
  chunk_text_by_words fuel text 800 50 = Some chunks ->
  progress_reports (events (summarize_long_text fuel w text))
  = if len chunks <=? 1 then []
    else List.map (fun k => (Z.of_nat k, len chunks))
                  (seq 1 (length chunks)).
Proof.
  intros Hget Hchunks.
  destruct (Z.leb_spec (len chunks) 1) as [Hle | Hgt].
  - rewrite (summarize_long_text_chunks fuel w _ text chunks Hget Hchunks).
    destruct chunks as [| c [| c' rest]]; [reflexivity | reflexivity |].
    unfold len in Hle. cbn [length] in Hle. lia.
  - rewrite (summarize_long_text_multi w f Hget fuel text chunks Hchunks Hgt).
    unfold events. cbn [snd progress_reports flat_map app].
    change (progress_reports
              (chunk_log (len chunks) 1 chunks
               ++ [StProgressEmpty;
                   SummarizerCall
                     (join SP (List.map (fun c => f c 130 50) chunks))
                     160 60])
            = List.map (fun k => (Z.of_nat k, len chunks))
                       (seq 1 (length chunks))).
    unfold progress_reports at 1. rewrite flat_map_app. cbn [flat_map app].
    rewrite app_nil_r.
    exact (progress_reports_chunk_log (len chunks) chunks 1).
Qed.

Lemma progress_is_reported_per_chunk_witness :
  progress_reports (events (summarize_long_text 2 echo_world long_text))
  = [(1, 2); (2, 2)].
Proof.
  rewrite (progress_is_reported_per_chunk echo_world
             (fun input _ _ => input) 2 long_text
             (List.map (chunk_of (split long_text)) [(0, 800); (750, 801)])
             eq_refl ltac:(vm_compute; reflexivity)).
  reflexivity.
Defined.

(** X10.  With a Summarizer that is loaded and does not raise, the number
    of Summarizer calls for a text of N words is 0 for N = 0, 1 for
    N <= 800, and [ceil((N - 800) / 750) + 2] for more: one call per chunk
    and the final one. *)
Theorem summarizer_call_count (w : world) (f : str -> Z -> Z -> str)
    (fuel : nat) (text : str) :
  get_summarizer w = ret (stub f) -> (length (split text) <= fuel)%nat ->
  len (summarizer_calls (events (summarize_long_text fuel w text)))
  = if len (split text) =? 0 then 0
    else if len (split text) <=? 800 then 1
    else ceil_div (len (split text) - 800) 750 + 2.
Proof.
  intros Hget Hfuel.
  destruct (chunk_text_by_words_returns text 800 50 fuel ltac:(lia) Hfuel)
    as (chunks & Hchunks).
  pose proof (len_chunks text 800 50 fuel chunks ltac:(lia) Hchunks) as Hlen.
  change (800 - 50) with 750 in Hlen.
  assert (Hc : 800 < len (split text) ->
               1 <= ceil_div (len (split text) - 800) 750).
  { intros H. apply (ceil_div_least _ 750 1); lia. }
  assert (Hcalls :
    len (summarizer_calls (events (summarize_long_text fuel w text)))
    = if len chunks <=? 1 then len chunks else len chunks + 1).
  { destruct (Z.leb_spec (len chunks) 1) as [Hle | Hgt].
    - rewrite (summarize_long_text_chunks fuel w _ text chunks Hget Hchunks).
      destruct chunks as [| c [| c' rest]]; [reflexivity | reflexivity |].
      unfold len in Hle. cbn [length] in Hle. lia.
    - rewrite (summarize_long_text_multi w f Hget fuel text chunks Hchunks
                 Hgt).
      unfold events. cbn [snd].
      change (len (summarizer_calls
                     (chunk_log (len chunks) 1 chunks
                      ++ [StProgressEmpty;
                          SummarizerCall
                            (join SP (List.map (fun c => f c 130 50) chunks))
                            160 60]))
              = len chunks + 1).
      rewrite summarizer_calls_app, summarizer_calls_chunk_log.
      unfold len. rewrite length_app, length_map. cbn. lia. }
  rewrite Hcalls, Hlen.
  destruct (Z.eqb_spec (len (split text)) 0); [reflexivity |].
  destruct (Z.leb_spec (len (split text)) 800) as [Hle | Hgt];
    [reflexivity |].
  specialize (Hc Hgt).
  destruct (Z.leb_spec (ceil_div (len (split text) - 800) 750 + 1) 1); lia.
Qed.

Lemma summarizer_call_count_witness :
  len (summarizer_calls (events (summarize_long_text 801 echo_world long_text)))
  = ceil_div (801 - 800) 750 + 2.
Proof.
  rewrite (summarizer_call_count echo_world (fun input _ _ => input)
             801 long_text eq_refl ltac:(vm_compute; lia)).
  reflexivity.
Defined.

(** ** Further properties of the analysis and of the page *)

(** X11.  When neither summarization model loads, [analyze_notes] shows
    the error message once and raises the exception of the second, the
    fallback, model, whatever the text: no model is called and no spaCy
    warning is shown; from the page, only the spinner comes before. *)
Theorem model_load_failure_is_fatal (lower : str -> str) (fuel : nat)
    (w : world) (text : str) (e1 e2 : exn) :
  load_pipeline w "facebook/bart-large-cnn" = inl e1 ->
  load_pipeline w "sshleifer/distilbart-cnn-12-6" = inl e2 ->
  analyze_notes lower fuel w text
  = (Raise e2,
     [StError "Failed to load summarizer model. Check your internet connection."])
  /\ (truthy (strip text) = true ->
      run_clicked lower fuel w text
      = (Raise e2,
         [StSpinner "Analyzing notes... please wait.";
          StError "Failed to load summarizer model. Check your internet connection."])).
Proof.
  intros H1 H2.
  assert (Ha : analyze_notes lower fuel w text
    = (Raise e2,
       [StError "Failed to load summarizer model. Check your internet connection."])).
  { unfold analyze_notes, summarize_long_text, get_summarizer.
    now rewrite H1, H2. }
  split; [exact Ha |].
  intros Hguard. unfold run_clicked. now rewrite Hguard, bind_emit, Ha.
Qed.

Lemma model_load_failure_is_fatal_witness :
  analyze_notes (fun s => s) 5 no_model_world (lit "ship it")
  = (Raise (PyException "sshleifer/distilbart-cnn-12-6"),
     [StError "Failed to load summarizer model. Check your internet connection."]).
Proof.
  exact (proj1 (model_load_failure_is_fatal (fun s => s) 5 no_model_world
                  (lit "ship it") _ _ eq_refl eq_refl)).
Defined.

Lemma extract_with_nlp (lower : str -> str) (w : world) (nlp : Nlp)
    (text : str) :
  get_nlp w = ret (Some nlp) ->
  events (extract_entities_and_actions lower w text) = [NlpCall text]
  /\ (forall e, nlp text = inl e ->
        outcome (extract_entities_and_actions lower w text) = Raise e)
  /\ (forall doc, nlp text = inr doc ->
        exists x,
          outcome (extract_entities_and_actions lower w text) = Ok x).
Proof.
  intros Hnlp. unfold extract_entities_and_actions.
  rewrite Hnlp, bind_ret. unfold call_nlp. rewrite bind_emit.
  destruct (nlp text) as [e | doc]; cbn.
  - split; [reflexivity |]. split; [now intros e' [= <-] | discriminate].
  - split; [reflexivity |]. split; [discriminate |]. intros doc' _.
    now eexists.
Qed.

(** X12.  When the summary is computed and spaCy is loaded, the entity
    extractor is called exactly once, on the whole text as it was given,
    after everything the summary did; and when that call raises,
    [analyze_notes] raises its exception and the summary is lost. *)
Theorem analyze_calls_extractor_once (lower : str -> str) (fuel : nat)
    (w : world) (nlp : Nlp) (text s : str) :
  get_nlp w = ret (Some nlp) ->
  outcome (summarize_long_text fuel w text) = Ok s ->
  events (analyze_notes lower fuel w text)
  = events (summarize_long_text fuel w text) ++ [NlpCall text]
  /\ nlp_calls (events (analyze_notes lower fuel w text)) = [text]
  /\ (forall e, nlp text = inl e ->
        outcome (analyze_notes lower fuel w text) = Raise e).
Proof.
  intros Hnlp Hs.
  destruct (extract_with_nlp lower w nlp text Hnlp) as (Hev & Hraise & Hok).
  assert (He : events (analyze_notes lower fuel w text)
               = events (summarize_long_text fuel w text) ++ [NlpCall text]).
  { unfold analyze_notes. rewrite events_bind, Hs, events_bind, Hev.
    f_equal. cbn [app]. f_equal.
    now destruct (outcome (extract_entities_and_actions lower w text)). }
  split; [exact He |]. split.
  - rewrite He. unfold nlp_calls. rewrite flat_map_app.
    fold (nlp_calls (events (summarize_long_text fuel w text))).
    now rewrite (no_nlp_summarize_long_text fuel w text).
  - intros e Hnlp_e. unfold analyze_notes.
    now rewrite outcome_bind, Hs, outcome_bind, (Hraise e Hnlp_e).
Qed.

Lemma analyze_calls_extractor_once_witness :
  nlp_calls (events (analyze_notes (fun s => s) 1 spacy_world
                       (lit " ship  it ")))
  = [lit " ship  it "].
Proof.
  exact (proj1 (proj2
    (analyze_calls_extractor_once (fun s => s) 1 spacy_world empty_nlp
       (lit " ship  it ") (lit "ship it") eq_refl eq_refl))).
Defined.

(** X13.  When [summarize_long_text] raises, [analyze_notes] raises the
    same exception having done nothing more: no spaCy warning is shown
    and no entity is extracted. *)
Theorem analyze_stops_on_summary_failure (lower : str -> str) (fuel : nat)
    (w : world) (text : str) (e : exn) :
  outcome (summarize_long_text fuel w text) = Raise e ->
  analyze_notes lower fuel w text
  = (Raise e, events (summarize_long_text fuel w text)).
Proof.
  intros Hs. unfold analyze_notes.
  destruct (summarize_long_text fuel w text) as [r log].
  cbn in Hs. now subst r.
Qed.

Lemma analyze_stops_on_summary_failure_witness :
  analyze_notes (fun s => s) 1 flaky_world (lit "ship it")
  = (Raise (PyException "RuntimeError"),
     events (summarize_long_text 1 flaky_world (lit "ship it"))).
Proof.
  exact (analyze_stops_on_summary_failure (fun s => s) 1 flaky_world
           (lit "ship it") (PyException "RuntimeError") eq_refl).
Defined.

Lemma str_eqb_eq (a b : str) : str_eqb a b = true <-> a = b.
Proof.
  unfold str_eqb. destruct (list_eq_dec N.eq_dec a b); split;
    congruence.
Qed.

Lemma existsb_str_eqb (x : str) (l : list str) :
  existsb (str_eqb x) l = true <-> In x l.
Proof.
  rewrite existsb_exists. split.
  - intros (y & Hy & Heq). apply str_eqb_eq in Heq. now subst.
  - intros H. exists x. split; [exact H | now apply str_eqb_eq].
Qed.

Lemma fromkeys_from_in (l seen : list str) (x : str) :
  In x (fromkeys_from seen l) <-> In x l /\ ~ In x seen.
Proof.
  revert seen. induction l as [| y l IH]; intros seen; cbn.
  - tauto.
  - destruct (existsb (str_eqb y) seen) eqn:E.
    + apply existsb_str_eqb in E. rewrite IH. split.
      * tauto.
      * intros [[<- | H] Hn]; [contradiction | tauto].
    + assert (Hy : ~ In y seen).
      { intros H. apply existsb_str_eqb in H. congruence. }
      cbn. rewrite IH. cbn. split.
      * intros [<- | [H Hn]]; [tauto |]. tauto.
      * intros [[<- | H] Hn]; [now left |].
        destruct (list_eq_dec N.eq_dec y x) as [-> | Hne]; [now left |].
        right. split; [exact H |]. intros [? | ?]; [congruence | tauto].
Qed.

Lemma fromkeys_from_nodup (l seen : list str) :
  NoDup (fromkeys_from seen l).
Proof.
  revert seen. induction l as [| y l IH]; intros seen; cbn.
  - constructor.
  - destruct (existsb (str_eqb y) seen); [apply IH |].
    constructor; [| apply IH].
    rewrite fromkeys_from_in. cbn. tauto.
Qed.

Lemma fromkeys_from_snoc (l seen : list str) (x : str) :
  fromkeys_from seen (l ++ [x])
  = fromkeys_from seen l
    ++ (if existsb (str_eqb x) seen || existsb (str_eqb x) l then []
        else [x]).
Proof.
  revert seen. induction l as [| y l IH]; intros seen; cbn [app fromkeys_from].
  - cbn. rewrite orb_false_r. now destruct (existsb (str_eqb x) seen).
  - destruct (existsb (str_eqb y) seen) eqn:E.
    + rewrite IH. f_equal. cbn [existsb].
      destruct (str_eqb x y) eqn:Exy; [| reflexivity].
      apply str_eqb_eq in Exy. subst y. now rewrite E.
    + rewrite IH. cbn [app existsb].
      replace (str_eqb x y || existsb (str_eqb x) seen
               || existsb (str_eqb x) l)
        with (existsb (str_eqb x) seen
              || (str_eqb x y || existsb (str_eqb x) l))
        by (destruct (str_eqb x y), (existsb (str_eqb x) seen),
              (existsb (str_eqb x) l); reflexivity).
      reflexivity.
Qed.

Lemma bullets_shown (mark : string) (bold : bool) (items : list str) :
  outcome (bullets mark bold items) = Ok tt
  /\ shown_values (events (bullets mark bold items)) = items.
Proof.
  induction items as [| item rest [IHo IHe]]; [split; reflexivity |].
  cbn [bullets]. rewrite bind_emit. unfold outcome, events in *.
  cbn [fst snd]. split; [exact IHo |].
  cbn [shown_values flat_map]. fold (shown_values (snd (bullets mark bold rest))).
  rewrite IHe. now destruct bold.
Qed.

Lemma card_outcome (heading mark : string) (bold : bool) (none : string)
    (items : list str) :
  outcome (card heading mark bold none items) = Ok tt.
Proof.
  unfold card. rewrite outcome_bind. cbn.
  destruct (truthy items); [| reflexivity]. apply bullets_shown.
Qed.

(** X14.  A card of the page displays every item of its list once, in the
    order in which the items are first met in the list, and never fails;
    for an empty list it displays no item. *)
Theorem card_shows_each_item_once (heading mark : string) (bold : bool)
    (none : string) (items : list str) :
  outcome (card heading mark bold none items) = Ok tt
  /\ shown_values (events (card heading mark bold none items))
     = dict_fromkeys items
  /\ NoDup (dict_fromkeys items)
  /\ (forall x, In x (dict_fromkeys items) <-> In x items)
  /\ (forall l x,
        dict_fromkeys (l ++ [x])
        = if existsb (str_eqb x) l then dict_fromkeys l
          else dict_fromkeys l ++ [x]).
Proof.
  split; [apply card_outcome |]. split.
  - unfold card. rewrite bind_emit. unfold events. cbn [fst snd].
    cbn [shown_values flat_map app].
    destruct items as [| item rest]; [reflexivity |]. cbn [truthy].
    apply (bullets_shown mark bold (dict_fromkeys (item :: rest))).
  - split; [apply fromkeys_from_nodup |]. split.
    + intros x. unfold dict_fromkeys. rewrite fromkeys_from_in. cbn. tauto.
    + intros l x. unfold dict_fromkeys. rewrite fromkeys_from_snoc.
      cbn [existsb orb].
      destruct (existsb (str_eqb x) l); [apply app_nil_r | reflexivity].
Qed.

(** X15.  For a text that is not blank, the [run_clicked] branch raises
    exactly when [analyze_notes] does, and with the same exception: the
    display of a result never fails.  When the analysis raises, nothing
    is displayed after the spinner: no summary, no card. *)
Theorem run_clicked_renders_only_on_success (lower : str -> str)
    (fuel : nat) (w : world) (user_text : str) :
  truthy (strip user_text) = true ->
  outcome (run_clicked lower fuel w user_text)
  = match outcome (analyze_notes lower fuel w user_text) with
    | Ok _ => Ok tt
    | Raise e => Raise e
    | Running => Running
    end
  /\ (forall e,
        outcome (analyze_notes lower fuel w user_text) = Raise e ->
        events (run_clicked lower fuel w user_text)
        = StSpinner "Analyzing notes... please wait."
          :: events (analyze_notes lower fuel w user_text)).
Proof.
  intros Hguard. unfold run_clicked. rewrite Hguard. split.
  - rewrite outcome_bind. cbn [emit outcome fst]. rewrite outcome_bind.
    destruct (outcome (analyze_notes lower fuel w user_text)) as [r | e |];
      [| reflexivity | reflexivity].
    rewrite !outcome_bind. cbn [emit outcome fst].
    change (fst (card "### Deadlines" "- " true "No deadlines found."
                   (deadlines r)))
      with (outcome (card "### Deadlines" "- " true "No deadlines found."
                       (deadlines r))).
    rewrite card_outcome.
    change (fst (card "### People" "- " true "No people found." (people r)))
      with (outcome (card "### People" "- " true "No people found."
                       (people r))).
    rewrite card_outcome. apply card_outcome.
  - intros e He. rewrite events_bind. cbn [emit events outcome fst snd app].
    f_equal. change (snd ?m) with (events m).
    rewrite events_bind, He. apply app_nil_r.
Qed.

Lemma run_clicked_renders_only_on_success_witness :
  events (run_clicked (fun s => s) 1 flaky_world (lit "ship it"))
  = StSpinner "Analyzing notes... please wait."
    :: events (analyze_notes (fun s => s) 1 flaky_world (lit "ship it")).
Proof.
  exact (proj2 (run_clicked_renders_only_on_success (fun s => s) 1
                  flaky_world (lit "ship it") eq_refl)
           (PyException "RuntimeError") eq_refl).
Defined.

Lemma lstrip_head (s : str) (c : char) (t : str) :
  lstrip s = c :: t -> isspace c = false.
Proof.
  induction s as [| d s IH]; [discriminate |]. cbn.
  destruct (isspace d) eqn:E; [exact IH |]. now intros [= <- _].
Qed.

Lemma lstrip_split (s : str) :
  exists ws, s = ws ++ lstrip s /\ forallb isspace ws = true.
Proof.
  induction s as [| d s (ws & Hs & Hws)]; [now exists [] |]. cbn.
  destruct (isspace d) eqn:E.
  - exists (d :: ws). cbn. rewrite E, Hws. split; [now f_equal | reflexivity].
  - now exists [].
Qed.

Lemma lstrip_empty (s : str) :
  lstrip s = [] -> forallb isspace s = true.
Proof.
  intros H. destruct (lstrip_split s) as (ws & Hs & Hws).
  rewrite H, app_nil_r in Hs. now subst.
Qed.

Lemma forallb_rev {A} (f : A -> bool) (l : list A) :
  forallb f (rev l) = forallb f l.
Proof.
  induction l as [| a l IH]; [reflexivity |]. cbn.
  rewrite forallb_app, IH. cbn. rewrite andb_true_r. apply andb_comm.
Qed.

Lemma strip_empty (s : str) :
  strip s = [] -> forallb isspace s = true.
Proof.
  unfold strip, rstrip. intros H.
  assert (H1 : lstrip (rev (lstrip s)) = []).
  { apply (f_equal (@rev char)) in H. now rewrite rev_involutive in H. }
  apply lstrip_empty in H1. rewrite forallb_rev in H1.
  destruct (lstrip_split s) as (ws & Hs & Hws).
  rewrite Hs, forallb_app, Hws, H1. reflexivity.
Qed.

Lemma split_from_empty (s cur : str) :
  split_from cur s = [] -> cur = [] /\ forallb isspace s = true.
Proof.
  revert cur. induction s as [| c s IH]; intros cur; cbn.
  - destruct cur; [now split | discriminate].
  - destruct (isspace c) eqn:E.
    + destruct cur; [| discriminate]. intros H.
      destruct (IH [] H) as [_ Hs]. now rewrite Hs.
    + intros H. destruct (IH _ H) as [Hcur _]. now destruct cur.
Qed.

Lemma guard_is_words (text : str) : truthy (strip text) = truthy (split text).
Proof.
  destruct (forallb isspace text) eqn:E.
  - rewrite strip_whitespace by exact E. unfold split.
    now rewrite split_from_whitespace.
  - destruct (strip text) eqn:Hs.
    + apply strip_empty in Hs. congruence.
    + destruct (split text) eqn:Hw; [| reflexivity].
      apply split_from_empty in Hw as [_ Hw]. congruence.
Qed.

Lemma summarize_chunks_first_call (p : Pipeline) (total idx : Z) (c : str)
    (rest acc : list str) :
  exists log,
    events (summarize_chunks p total idx (c :: rest) acc)
    = SummarizerCall c 130 50 :: log.
Proof.
  cbn [summarize_chunks]. rewrite events_bind. unfold call_summarizer at 1.
  rewrite events_bind. cbn [emit events snd app]. now eexists.
Qed.

(** X16.  A text that passes the guard of the page, [user_text.strip()],
    has a word: it is chunked into at least one chunk, and once the
    Summarizer is loaded the first call is the Summarizer on the first
    chunk, with [max_length=130] and [min_length=50].  From the page,
    [summarize_long_text] never takes its branch for no chunk. *)
Theorem guard_gives_a_chunk (w : world) (p : Pipeline) (fuel : nat)
    (text : str) :
  truthy (strip text) = true ->
  get_summarizer w = ret p -> (length (split text) <= fuel)%nat ->
  exists c rest calls,
    chunk_text_by_words fuel text 800 50 = Some (c :: rest)
    /\ summarizer_calls (events (summarize_long_text fuel w text))
       = (c, 130, 50) :: calls.
Proof.
  intros Hguard Hget Hfuel. rewrite guard_is_words in Hguard.
  destruct (chunk_text_by_words_returns text 800 50 fuel ltac:(lia) Hfuel)
    as (chunks & Hchunks).
  destruct (chunk_text_by_words_chain text 800 50 fuel chunks ltac:(lia)
              Hchunks) as [[Hz _] | (Hn & ranges & -> & Hchain)].
  { destruct (split text); [discriminate | discriminate]. }
  destruct (chain_head _ 800 50 ltac:(lia) ltac:(lia) _ _ Hchain)
    as (tl & -> & _).
  cbn [List.map] in Hchunks |- *.
  set (c := chunk_of (split text) (0, Z.min (0 + 800) (len (split text))))
    in *.
  set (rest := List.map (chunk_of (split text)) tl) in *.
  rewrite (summarize_long_text_chunks fuel w p text _ Hget Hchunks).
  cbn [truthy negb].
  destruct (len (c :: rest) =? 1).
  - exists c, rest. cbn [hd]. unfold call_summarizer. rewrite events_bind.
    cbn [emit events snd app summarizer_calls flat_map].
    eexists. split; [exact Hchunks | reflexivity].
  - exists c, rest. rewrite events_bind.
    cbn [emit events outcome fst snd app summarizer_calls flat_map].
    change (snd ?m) with (events m). rewrite events_bind.
    destruct (summarize_chunks_first_call p (len (c :: rest)) 1 c rest [])
      as (log & ->).
    cbn [app flat_map]. eexists. split; [exact Hchunks | reflexivity].
Qed.

Lemma guard_gives_a_chunk_witness :
  exists c rest calls,
    chunk_text_by_words 2 (lit " ship  it ") 800 50 = Some (c :: rest)
    /\ summarizer_calls
         (events (summarize_long_text 2 flaky_world (lit " ship  it ")))
       = (c, 130, 50) :: calls.
Proof.
  exact (guard_gives_a_chunk flaky_world flaky 2 (lit " ship  it ")
           eq_refl eq_refl ltac:(vm_compute; lia)).
Defined.

Lemma lstrip_fixed (s : str) :
  match s with [] => True | c :: _ => isspace c = false end ->
  lstrip s = s.
Proof. destruct s as [| c s]; [reflexivity |]. cbn. now intros ->. Qed.

Lemma lstrip_starts (s : str) :
  match lstrip s with [] => True | c :: _ => isspace c = false end.
Proof.
  destruct (lstrip s) as [| c t] eqn:E; [exact I |].
  exact (lstrip_head _ _ _ E).
Qed.

Lemma strip_idempotent (s : str) : strip (strip s) = strip s.
Proof.
  unfold strip, rstrip.
  set (u := lstrip (rev (lstrip s))).
  assert (Hhead : lstrip (rev u) = rev u).
  { apply lstrip_fixed.
    destruct (lstrip_split (rev (lstrip s))) as (ws & Hs & _).
    fold u in Hs. apply (f_equal (@rev char)) in Hs.
    rewrite rev_involutive, rev_app_distr in Hs.
    pose proof (lstrip_starts s) as Hl. rewrite Hs in Hl.
    destruct (rev u); [exact I | exact Hl]. }
  rewrite Hhead, rev_involutive. f_equal.
  apply lstrip_fixed. apply lstrip_starts.
Qed.

Lemma filter_two_length {A} (f g : A -> bool) (l : list A) :
  (forall a, f a = true -> g a = false) ->
  (length (filter f l) + length (filter g l) <= length l)%nat.
Proof.
  intros Hfg. induction l as [| a l IH]; [apply Nat.le_refl |]. cbn.
  destruct (f a) eqn:Ef.
  - rewrite (Hfg a Ef). cbn. lia.
  - destruct (g a); cbn; lia.
Qed.

(** X17.  When spaCy is loaded and analyses the text, the extraction
    returns: no entity is listed both as a deadline and as a person, so
    the two lists together hold at most one item per entity; there is at
    most one action item per sentence; and an action item is stripped:
    stripping it again changes nothing. *)
Theorem extraction_shape (lower : str -> str) (w : world) (nlp : Nlp)
    (text : str) (doc : Doc) :
  get_nlp w = ret (Some nlp) -> nlp text = inr doc ->
  exists x,
    outcome (extract_entities_and_actions lower w text) = Ok x
    /\ (length (x_deadlines x) + length (x_people x)
        <= length (ents doc))%nat
    /\ (length (x_action_items x) <= length (sents doc))%nat
    /\ Forall (fun item => strip item = item) (x_action_items x).
Proof.
  intros Hnlp Hdoc. unfold extract_entities_and_actions.
  rewrite Hnlp, bind_ret. unfold call_nlp. rewrite bind_emit, Hdoc.
  cbn [ret bind outcome fst snd]. eexists. split; [reflexivity |].
  cbn [x_deadlines x_people x_action_items]. rewrite !length_map.
  split; [| split].
  - apply filter_two_length. intros ent H.
    apply orb_true_iff in H as [H | H]; apply str_eqb_eq in H;
      now rewrite H.
  - apply filter_length_le.
  - apply Forall_map, Forall_forall. intros sent _. apply strip_idempotent.
Qed.

Lemma extraction_shape_witness :
  exists x,
    outcome (extract_entities_and_actions (fun s => s) tagging_world
               (lit "notes"))
    = Ok x
    /\ (length (x_deadlines x) + length (x_people x) <= 3)%nat
    /\ (length (x_action_items x) <= 2)%nat
    /\ Forall (fun item => strip item = item) (x_action_items x).
Proof.
  exact (extraction_shape (fun s => s) tagging_world tagging_nlp
           (lit "notes") _ eq_refl eq_refl).
Defined.
